(** * Comunica: join substrate, slice operator, native HTTP actor and runner

    A shallow embedding of
    - [packages/bus-rdf-join/lib/ActorRdfJoin.ts]  (module [RdfJoin]),
    - [ActorQueryOperationSlice]                    (module [QuerySlice]),
    - [ActorHttpNative]                             (module [HttpNative]),
    - [packages/runner/lib/Runner.ts]               (module [RunnerModel]),
    over a small model of JavaScript numbers, exceptions and promises
    (module [Js]) and of RDF terms and bindings (module [Rdf]); then the
    vocabulary of the specification ([Spec], [NumberSpec], [HttpSpec]),
    sample data ([Examples]) and the properties proved of the code. *)

From Stdlib Require Import ZArith List String Ascii Lia Permutation.
From stdpp Require Import base option list gmap strings fin_maps.

Local Open Scope Z_scope.

(** ** JavaScript numbers and values *)
Module Js.

(** A JavaScript [number].  Only integer-valued doubles occur in this code
    (counts, offsets and limits), so the finite numbers are integers.  A
    double holds every integer up to 2^53 in absolute value, and an
    operation on doubles whose exact result is such an integer returns it:
    on these the arithmetic below is the one of the code.  Beyond that
    range a double rounds, or overflows to an infinity, which [Fin] does not
    do: where a property depends on a sum or a product that could leave the
    range, it is stated for safe integers ([NumberSpec]). *)
Inductive Number : Type :=
| NaN
| NegInf
| Fin (z : Z)
| PosInf.

#[global] Instance Number_eq_dec : EqDecision Number.
Proof. solve_decision. Defined.

Definition sign (a : Number) : Z :=
  match a with
  | NaN => 0
  | NegInf => -1
  | Fin z => Z.sgn z
  | PosInf => 1
  end.

Definition infinity_of_sign (s : Z) : Number :=
  match s with
  | Z0 => NaN
  | Zpos _ => PosInf
  | Zneg _ => NegInf
  end.

(** [a * b], exact on the integers: the product of the code as long as
    it is at most 2^53 in absolute value. *)
Definition mul (a b : Number) : Number :=
  match a, b with
  | NaN, _ | _, NaN => NaN
  | Fin x, Fin y => Fin (x * y)
  | _, _ => infinity_of_sign (sign a * sign b)
  end.

(** [a + b], exact on the integers: the sum of the code as long as it is
    at most 2^53 in absolute value. *)
Definition add (a b : Number) : Number :=
  match a, b with
  | NaN, _ | _, NaN => NaN
  | Fin x, Fin y => Fin (x + y)
  | PosInf, NegInf | NegInf, PosInf => NaN
  | PosInf, _ | _, PosInf => PosInf
  | NegInf, _ | _, NegInf => NegInf
  end.

(** [- a] *)
Definition neg (a : Number) : Number :=
  match a with
  | NaN => NaN
  | NegInf => PosInf
  | Fin z => Fin (- z)
  | PosInf => NegInf
  end.

(** [a - b], exact on the integers, as [add]. *)
Definition sub (a b : Number) : Number := add a (neg b).

(** [a < b] *)
Definition lt (a b : Number) : bool :=
  match a, b with
  | NaN, _ | _, NaN => false
  | Fin x, Fin y => x <? y
  | NegInf, NegInf => false
  | NegInf, _ => true
  | _, NegInf => false
  | PosInf, _ => false
  | _, PosInf => true
  end.

(** [a > b] *)
Definition gt (a b : Number) : bool := lt b a.

(** [Math.max(a, b)] *)
Definition max (a b : Number) : Number :=
  match a, b with
  | NaN, _ | _, NaN => NaN
  | _, _ => if lt a b then b else a
  end.

(** [Math.min(a, b)] *)
Definition min (a b : Number) : Number :=
  match a, b with
  | NaN, _ | _, NaN => NaN
  | _, _ => if lt b a then b else a
  end.

(** [Number.isFinite(a)] *)
Definition Number_isFinite (a : Number) : bool :=
  match a with
  | Fin _ => true
  | _ => false
  end.

(** A value stored in a metadata object.  The code reads the metadata for
    their [totalItems] only, a number; [undefined] is what a missing key
    reads as. *)
Inductive Value : Type :=
| JUndefined
| JNumber (n : Number).

#[global] Instance Value_eq_dec : EqDecision Value.
Proof. solve_decision. Defined.

(** [ToNumber] *)
Definition toNumber (v : Value) : Number :=
  match v with
  | JUndefined => NaN
  | JNumber n => n
  end.

(** The global [isFinite(v)], which coerces its argument. *)
Definition isFinite (v : Value) : bool := Number_isFinite (toNumber v).

(** [Boolean(v)] for an optional number. *)
Definition Boolean (v : option Number) : bool :=
  match v with
  | None => false
  | Some NaN => false
  | Some (Fin 0) => false
  | Some _ => true
  end.

(** [v === 0] for an optional number. *)
Definition strict_eq_zero (v : option Number) : bool :=
  match v with
  | Some (Fin 0) => true
  | _ => false
  end.

(** What a [throw] carries.  Messages built from a template keep the
    interpolated parts as arguments. *)
Inductive Error : Type :=
| Err (message : string)
| TypeErr (message : string)
| ErrLimitEntries (name : string) (limitEntries : Number) (limitEntriesMin : bool) (given : nat)
| ErrJoinEntryType (type : string)
| ErrOutputType (type : string).

(** The completion of an evaluation: a value, or a thrown error.  The same
    type describes how a promise settles ([Normal]: resolved, [Throw]:
    rejected), so that [await] is the bind below. *)
Inductive Completion (A : Type) : Type :=
| Normal (a : A)
| Throw (e : Error).
Arguments Normal {A} a.
Arguments Throw {A} e.

#[global] Instance Completion_ret : MRet Completion := @Normal.
#[global] Instance Completion_bind : MBind Completion :=
  fun A B f c => match c with Normal a => f a | Throw e => Throw e end.

(** [try { body } catch (error) { handler(error) }] *)
Definition try_catch {A} (body : Completion A) (handler : Error → Completion A) : Completion A :=
  match body with
  | Normal a => Normal a
  | Throw e => handler e
  end.

(** [Promise.all]: resolves with all the values, in order, or rejects with
    the rejection of an element (here: of the first rejected one). *)
Fixpoint Promise_all {A} (ps : list (Completion A)) : Completion (list A) :=
  match ps with
  | [] => Normal []
  | p :: ps' => a ← p; as' ← Promise_all ps'; Normal (a :: as')
  end.

(** [array.reduce(f)] without an initial value. *)
Definition reduce1 {A} (f : A → A → Completion A) (l : list A) : Completion A :=
  match l with
  | [] => Throw (TypeErr "Reduce of empty array with no initial value")
  | x :: xs => foldl (fun acc val => a ← acc; f a val) (Normal x) xs
  end.

(** A method body that calls into collaborators: it extends the record
    of the calls made (of some type [C]) and completes normally or throws.
    For an [async] method the completion is how its promise settles. *)
Definition Traced (C A : Type) : Type := list C → Completion A * list C.

#[global] Instance Traced_ret {C} : MRet (Traced C) := fun A a calls => (Normal a, calls).
#[global] Instance Traced_bind {C} : MBind (Traced C) :=
  fun A B f m calls =>
    match m calls with
    | (Normal a, calls') => f a calls'
    | (Throw e, calls') => (Throw e, calls')
    end.

Definition throw {C A} (e : Error) : Traced C A := fun calls => (Throw e, calls).

(** [await p] *)
Definition await {C A} (p : Completion A) : Traced C A := fun calls => (p, calls).

(** A call, recorded as [c], that returns [result]. *)
Definition call {C A} (c : C) (result : A) : Traced C A :=
  fun calls => (Normal result, calls ++ [c]).

(** [array.map(f)] for a callback that makes calls. *)
Fixpoint array_map {C A B} (f : A → Traced C B) (l : list A) : Traced C (list B) :=
  match l with
  | [] => mret []
  | x :: l' => y ← f x; ys ← array_map f l'; mret (y :: ys)
  end.

End Js.

Abbreviation Promise := Js.Completion (only parsing).
Abbreviation Metadata := (gmap string Js.Value) (only parsing).

(** ** RDF terms and bindings *)
Module Rdf.

(** Modelled from the spec: the RDF/JS term type is declared outside this
    repository's sources; section 3 gives it as a tagged variant with
    structural equality. *)
Inductive Term : Type :=
| NamedNode (iri : string)
| BlankNode (label : string)
| Literal (lexical : string) (datatype : string) (language : option string)
| DefaultGraph
| VariableTerm (name : string).

#[global] Instance Term_eq_dec : EqDecision Term.
Proof. solve_decision. Defined.

Definition language_eqb (l1 l2 : option string) : bool :=
  match l1, l2 with
  | None, None => true
  | Some a, Some b => String.eqb a b
  | _, _ => false
  end.

(** [left.equals(right)] *)
Definition equals (left right : Term) : bool :=
  match left, right with
  | NamedNode a, NamedNode b => String.eqb a b
  | BlankNode a, BlankNode b => String.eqb a b
  | Literal v d l, Literal v' d' l' => String.eqb v v' && String.eqb d d' && language_eqb l l'
  | DefaultGraph, DefaultGraph => true
  | VariableTerm a, VariableTerm b => String.eqb a b
  | _, _ => false
  end.

(** [Bindings] is an immutable map from variable names to terms. *)
Abbreviation Bindings := (gmap string Term) (only parsing).

(** [acc.mergeWith(merger, val)]: every entry of [val] is written into
    [acc]; where [acc] already has the key, [merger(existing, value)]
    decides the value to keep. *)
Definition mergeWith (merger : Term → Term → Js.Completion Term)
    (acc val : Bindings) : Js.Completion Bindings :=
  map_fold (fun key value (c : Js.Completion Bindings) =>
              collection ← c;
              match collection !! key with
              | None => Js.Normal (<[key := value]> collection)
              | Some existing =>
                  merged ← merger existing value;
                  Js.Normal (<[key := merged]> collection)
              end)
           (Js.Normal acc) val.

End Rdf.

(** ** [ActorRdfJoin]: the abstract join actor *)
Module RdfJoin.
Import Js Rdf.

(** [IActorQueryOperationOutputBindings].  A stream is given by the
    bindings it delivers, in order; a [metadata] thunk, when there is one,
    by the way its promise settles. *)
Record IActorQueryOperationOutputBindings : Type := {
  type : string;
  bindingsStream : list Bindings;
  metadata : option (Promise Metadata);
  variables : list string;
}.

Record IActionRdfJoin : Type := {
  entries : list IActorQueryOperationOutputBindings;
}.

Record IMediatorTypeIterations : Type := {
  iterations : Number;
}.

(** The abstract class: its two fields and its two abstract methods. *)
Record ActorRdfJoin : Type := {
  name : string;
  limitEntries : Number;
  limitEntriesMin : bool;
  getOutput : IActionRdfJoin → Promise IActorQueryOperationOutputBindings;
  getIterations : IActionRdfJoin → Promise Number;
}.

(** [constructor(args, limitEntries?, limitEntriesMin?)] *)
Definition new_ActorRdfJoin (name : string)
    (limitEntries : option Number) (limitEntriesMin : option bool)
    (getOutput : IActionRdfJoin → Promise IActorQueryOperationOutputBindings)
    (getIterations : IActionRdfJoin → Promise Number) : ActorRdfJoin :=
  {| name := name;
     limitEntries := default PosInf limitEntries;
     limitEntriesMin := default false limitEntriesMin;
     getOutput := getOutput;
     getIterations := getIterations |}.

(** Calls of the abstract methods are recorded, so that one can tell
    whether the subclass was reached. *)
Inductive Call : Type :=
| CallGetOutput (action : IActionRdfJoin)
| CallGetIterations (action : IActionRdfJoin).

Abbreviation M := (Traced Call) (only parsing).

(** [this.getOutput(action)]: the call is made, its promise is the value. *)
Definition call_getOutput (self : ActorRdfJoin) (action : IActionRdfJoin)
    : M (Promise IActorQueryOperationOutputBindings) :=
  call (CallGetOutput action) (getOutput self action).

(** [this.getIterations(action)] *)
Definition call_getIterations (self : ActorRdfJoin) (action : IActionRdfJoin)
    : M (Promise Number) :=
  call (CallGetIterations action) (getIterations self action).

(** The callback handed to [mergeWith] by [join]. *)
Definition join_merger (left right : Term) : Completion Term :=
  if negb (equals left right) then Throw (Err "Join failure") else Normal left.

(** [ActorRdfJoin.join(...bindings)]: [Normal None] is the [null] result. *)
Definition join (bindings : list Bindings) : Completion (option Bindings) :=
  try_catch
    (r ← reduce1 (fun acc val => mergeWith join_merger acc val) bindings;
     Normal (Some r))
    (fun error => Normal None).

(** [key in metadata] *)
Definition has_key (key : string) (metadata : Metadata) : bool :=
  bool_decide (is_Some (metadata !! key)).

(** [metadata[key]] *)
Definition get_key (key : string) (metadata : Metadata) : Value :=
  default JUndefined (metadata !! key).

(** [entry.metadata()] *)
Definition call_metadata (entry : IActorQueryOperationOutputBindings) : Promise Metadata :=
  match metadata entry with
  | None => Throw (TypeErr "entry.metadata is not a function")
  | Some thunk => thunk
  end.

(** [ActorRdfJoin.iteratorsHaveMetadata(action, key)] *)
Definition iteratorsHaveMetadata (action : IActionRdfJoin) (key : string) : Promise bool :=
  try_catch
    (_ ← Promise_all
           (map (fun entry =>
                   match metadata entry with
                   | None => Throw (Err "Missibg metadata")
                   | Some thunk =>
                       metadata ← thunk;
                       if negb (has_key key metadata)
                       then Throw (Err "Missing metadata value")
                       else Normal ()
                   end) (entries action));
     Normal true)
    (fun _ => Normal false).

(** The test of [test] on the number of entries. *)
Definition violatesLimit (self : ActorRdfJoin) (n : nat) : bool :=
  if limitEntriesMin self
  then lt (Fin (Z.of_nat n)) (limitEntries self)
  else gt (Fin (Z.of_nat n)) (limitEntries self).

(** [test(action)] *)
Definition test (self : ActorRdfJoin) (action : IActionRdfJoin) : M IMediatorTypeIterations :=
  if (length (entries action) <=? 1)%nat then
    mret {| iterations := Fin 0 |}
  else if violatesLimit self (length (entries action)) then
    throw (ErrLimitEntries (name self) (limitEntries self) (limitEntriesMin self)
             (length (entries action)))
  else
    match List.find (fun entry => negb (String.eqb (type entry) "bindings")) (entries action) with
    | Some entry => throw (ErrJoinEntryType (type entry))
    | None =>
        has ← await (iteratorsHaveMetadata action "totalItems");
        if negb has then
          mret {| iterations := PosInf |}
        else
          p ← call_getIterations self action;
          n ← await p;
          mret {| iterations := n |}
    end.

(** The local function [totalItems()] of [run]. *)
Definition totalItems (action : IActionRdfJoin) : Promise Number :=
  metadatas ← Promise_all (map call_metadata (entries action));
  Normal (fold_left (fun acc val => mul acc (toNumber (get_key "totalItems" val)))
                    metadatas (Fin 1)).

(** The output of [run] for an action without entries. *)
Definition emptyOutput : IActorQueryOperationOutputBindings :=
  {| bindingsStream := [];
     metadata := Some (Normal {[ "totalItems" := JNumber (Fin 0) ]});
     type := "bindings";
     variables := [] |}.

(** [unwrapped.metadata = ...]: the assignment made by [run]. *)
Definition set_metadata (unwrapped : IActorQueryOperationOutputBindings)
    (thunk : Promise Metadata) : IActorQueryOperationOutputBindings :=
  {| type := type unwrapped;
     bindingsStream := bindingsStream unwrapped;
     metadata := Some thunk;
     variables := variables unwrapped |}.

(** [run(action)] *)
Definition run (self : ActorRdfJoin) (action : IActionRdfJoin)
    : M IActorQueryOperationOutputBindings :=
  match entries action with
  | [] => mret emptyOutput                    (* entries.length === 0 *)
  | [entry] => mret entry                     (* entries.length === 1 *)
  | _ =>
      result ← call_getOutput self action;
      has ← await (iteratorsHaveMetadata action "totalItems");
      if (has : bool) then
        unwrapped ← await result;
        match metadata unwrapped with
        | Some oldMetadata =>
            mret (set_metadata unwrapped
                    (metadata ← oldMetadata;
                     if negb (has_key "totalItems" metadata) then
                       t ← totalItems action;
                       Normal (<["totalItems" := JNumber t]> metadata)
                     else Normal metadata))
        | None =>
            mret (set_metadata unwrapped
                    (totalItemsValue ← totalItems action;
                     Normal {[ "totalItems" := JNumber totalItemsValue ]}))
        end
      else
        await result
  end.

End RdfJoin.

(** ** [ActorQueryOperationSlice] *)
Module QuerySlice.
Import Js Rdf.

Definition Quad : Type := Term * Term * Term * Term.

(** The contract of [stream.transform({ offset, limit })] of the
    [asynciterator] package, on the items a stream delivers: nothing when
    the bounds are unreachable; otherwise the first [offset] items are
    skipped and at most [limit] of the following ones are passed on.  A
    finite bound is clamped at 0 (and truncated, which changes nothing on
    integers); a bound that is not finite keeps its default (offset 0, no
    limit). *)
Definition transform {A} (offset limit : Number) (stream : list A) : list A :=
  match offset, limit with
  | PosInf, _ | _, NegInf => []
  | _, _ =>
      let skipped :=
        match offset with
        | Fin z => drop (Z.to_nat (Z.max z 0)) stream
        | _ => stream
        end in
      match limit with
      | Fin z => take (Z.to_nat (Z.max z 0)) skipped
      | _ => skipped
      end
  end.

(** [IActorQueryOperationOutputStream], by its [type] tag: ['bindings'],
    ['quads'], or any other. *)
Inductive IActorQueryOperationOutputStream : Type :=
| OutputBindings (bindingsStream : list Bindings)
    (metadata : option (Promise Metadata)) (variables : list string)
| OutputQuads (quadStream : list Quad) (metadata : option (Promise Metadata))
| OutputOther (type : string) (metadata : option (Promise Metadata)).

Definition output_metadata (output : IActorQueryOperationOutputStream)
    : option (Promise Metadata) :=
  match output with
  | OutputBindings _ metadata _ => metadata
  | OutputQuads _ metadata => metadata
  | OutputOther _ metadata => metadata
  end.

Section Actor.
(** The algebra operations are only passed on to the mediator. *)
Context {Operation : Type}.

(** [Algebra.Slice] *)
Record Slice : Type := {
  input : Operation;
  start : Number;
  length : option Number;
}.

(** The actor, with its query-operation mediator. *)
Record ActorQueryOperationSlice : Type := {
  mediatorQueryOperation : Operation → Promise IActorQueryOperationOutputStream;
}.

Definition hasLength (pattern : Slice) : bool :=
  Boolean (length pattern) || strict_eq_zero (length pattern).

(** [sliceStream(stream, pattern)] *)
Definition sliceStream {A} (stream : list A) (pattern : Slice) : list A :=
  let end_ :=
    if hasLength pattern
    then sub (add (start pattern) (default NaN (length pattern))) (Fin 1)
    else PosInf in
  transform (start pattern)
            (max (add (sub end_ (start pattern)) (Fin 1)) (Fin 0))
            stream.

(** [sliceMetadata(output, pattern)] *)
Definition sliceMetadata (output : IActorQueryOperationOutputStream) (pattern : Slice)
    : option (Promise Metadata) :=
  match output_metadata output with
  | None => None
  | Some thunk =>
      Some (subMetadata ← thunk;
            let totalItems := default JUndefined (subMetadata !! "totalItems") in
            let totalItems :=
              if isFinite totalItems then
                let totalItems := max (Fin 0) (sub (toNumber totalItems) (start pattern)) in
                let totalItems :=
                  if hasLength pattern
                  then min totalItems (default NaN (length pattern))
                  else totalItems in
                JNumber totalItems
              else totalItems in
            Normal (<["totalItems" := totalItems]> subMetadata))
  end.

(** [runOperation(pattern, context)] *)
Definition runOperation (self : ActorQueryOperationSlice) (pattern : Slice)
    : Promise IActorQueryOperationOutputStream :=
  output ← mediatorQueryOperation self (input pattern);
  let metadata := sliceMetadata output pattern in
  match output with
  | OutputBindings bindingsStream _ variables =>
      Normal (OutputBindings (sliceStream bindingsStream pattern) metadata variables)
  | OutputQuads quadStream _ =>
      Normal (OutputQuads (sliceStream quadStream pattern) metadata)
  | OutputOther type _ => Throw (ErrOutputType type)
  end.
End Actor.
Arguments Slice : clear implicits.
Arguments ActorQueryOperationSlice : clear implicits.

End QuerySlice.

(** ** [ActorHttpNative] *)
Module HttpNative.
Import Js.

(** *** The fetch [Headers] class: an ordered list of name/value pairs whose
    names are kept in lower case. *)
Definition ascii_lower (c : ascii) : ascii :=
  let n := nat_of_ascii c in
  if ((65 <=? n) && (n <=? 90))%nat then ascii_of_nat (n + 32) else c.

Fixpoint lower (s : string) : string :=
  match s with
  | EmptyString => EmptyString
  | String c s' => String (ascii_lower c) (lower s')
  end.

Definition Headers : Type := list (string * string).

(** [headers.has(name)] *)
Definition Headers_has (headers : Headers) (name : string) : bool :=
  existsb (fun entry => String.eqb (fst entry) (lower name)) headers.

(** [headers.get(name)]: the values of the name joined by [", "], or [null]. *)
Definition Headers_get (headers : Headers) (name : string) : option string :=
  match List.filter (fun entry => String.eqb (fst entry) (lower name)) headers with
  | [] => None
  | first :: others =>
      Some (fold_left (fun acc entry => acc +:+ ", " +:+ snd entry) others (snd first))
  end.

(** [headers.append(name, value)], for a name and a value that the class
    accepts.  On a name or a value that is not legal for an HTTP header the
    class throws a [TypeError] instead: see [Headers_check]. *)
Definition Headers_append (headers : Headers) (name value : string) : Headers :=
  headers ++ [(lower name, value)].

(** [new Headers(init)]: the pairs of [init] are appended in turn.  As
    [Headers_append], for names and values that the class accepts. *)
Definition new_Headers (init : option (list (string * string))) : Headers :=
  fold_left (fun headers entry => Headers_append headers (fst entry) (snd entry))
            (default [] init) [].

(** What appending the pairs in turn throws.  Which names and values are
    legal, and the [TypeError] thrown for the others, depend on the fetch
    implementation at hand (the platform's, or the one that
    [cross-fetch/polyfill] installs): [refuses name value] is that error, if
    any.  The first pair that is refused throws. *)
Fixpoint Headers_check (refuses : string → string → option Error)
    (entries : list (string * string)) : Completion () :=
  match entries with
  | [] => Normal ()
  | entry :: rest =>
      match refuses (fst entry) (snd entry) with
      | Some error => Throw error
      | None => Headers_check refuses rest
      end
  end.

(** *** The action *)

(** A [Request]. *)
Record Request : Type := {
  url : string;
  method : option string;
  headers : option Headers;
  body : option string;
}.

(** The values this actor reads from the context, and the ones [init] may
    carry for [withCredentials] and [auth]. *)
Inductive ContextValue : Type :=
| CtxBoolean (b : bool)
| CtxString (s : string).

(** [RequestInit]: a plain object.  Of its own properties, those that the
    options of the request have: the fetch contract lets [init] carry
    [withCredentials] and [auth] next to the settings of fetch. *)
Record RequestInit : Type := {
  init_method : option string;
  init_headers : option (list (string * string));
  init_body : option string;
  init_withCredentials : option ContextValue;
  init_auth : option ContextValue;
}.

(** [RequestInfo]: a URL or a [Request]. *)
Inductive RequestInfo : Type :=
| InputString (s : string)
| InputRequest (r : Request).

(** Truthiness of a context value. *)
Definition truthy (v : ContextValue) : bool :=
  match v with
  | CtxBoolean b => b
  | CtxString s => negb (String.eqb s "")
  end.

Abbreviation ActionContext := (gmap string ContextValue) (only parsing).

Record IActionHttp : Type := {
  input : RequestInfo;
  init : option RequestInit;
  context : option ActionContext;
}.

(** The [options] object handed to the requester. *)
Record Options : Type := {
  opt_url : option RequestInfo;
  opt_method : option string;
  opt_headers : option Headers;
  opt_body : option string;
  opt_withCredentials : option ContextValue;
  opt_auth : option ContextValue;
}.

(** [const options: any = {}] *)
Definition emptyOptions : Options :=
  {| opt_url := None; opt_method := None; opt_headers := None; opt_body := None;
     opt_withCredentials := None; opt_auth := None |}.

Definition set_url (o : Options) (v : RequestInfo) : Options :=
  {| opt_url := Some v; opt_method := opt_method o; opt_headers := opt_headers o;
     opt_body := opt_body o; opt_withCredentials := opt_withCredentials o;
     opt_auth := opt_auth o |}.

Definition set_method (o : Options) (v : option string) : Options :=
  {| opt_url := opt_url o; opt_method := v; opt_headers := opt_headers o;
     opt_body := opt_body o; opt_withCredentials := opt_withCredentials o;
     opt_auth := opt_auth o |}.

Definition set_headers (o : Options) (v : option Headers) : Options :=
  {| opt_url := opt_url o; opt_method := opt_method o; opt_headers := v;
     opt_body := opt_body o; opt_withCredentials := opt_withCredentials o;
     opt_auth := opt_auth o |}.

Definition set_body (o : Options) (v : option string) : Options :=
  {| opt_url := opt_url o; opt_method := opt_method o; opt_headers := opt_headers o;
     opt_body := v; opt_withCredentials := opt_withCredentials o;
     opt_auth := opt_auth o |}.

Definition set_withCredentials (o : Options) (v : option ContextValue) : Options :=
  {| opt_url := opt_url o; opt_method := opt_method o; opt_headers := opt_headers o;
     opt_body := opt_body o; opt_withCredentials := v;
     opt_auth := opt_auth o |}.

Definition set_auth (o : Options) (v : option ContextValue) : Options :=
  {| opt_url := opt_url o; opt_method := opt_method o; opt_headers := opt_headers o;
     opt_body := opt_body o; opt_withCredentials := opt_withCredentials o;
     opt_auth := v |}.

(** [Object.assign(target, source)] for one optional property: a property
    the source has overwrites the target's. *)
Definition assign_property {A} (target source : option A) : option A :=
  match source with
  | Some v => Some v
  | None => target
  end.

(** [Object.assign(options, action.input)] for a [Request].
    [Object.assign] copies the own enumerable properties of its source.  A
    [Request] has its settings ([url], [method], [headers], [body]) as
    accessors of [Request.prototype], not as own properties: none of them is
    copied, and the options stay as they are. *)
Definition assign_request (o : Options) (r : Request) : Options := o.

(** [Object.assign(options, action.init)]: every own property of [init]
    is copied.  The [headers] are set by the caller right after. *)
Definition assign_init (o : Options) (i : RequestInit) : Options :=
  set_auth
    (set_withCredentials
       (set_body
          (set_method o (assign_property (opt_method o) (init_method i)))
          (assign_property (opt_body o) (init_body i)))
       (assign_property (opt_withCredentials o) (init_withCredentials i)))
    (assign_property (opt_auth o) (init_auth i)).

(** *** The requester and its response *)

(** The response object of the requester. *)
Record IncomingMessage : Type := {
  statusCode : Z;
  responseUrl : string;
  response_headers : Headers;
  response_body : string;
}.

(** What comes of [createRequest(options)]: the call itself throws, or
    the request emits an error, or it emits a response, which may itself
    emit an error before it is handed on. *)
Inductive RequestEvents : Type :=
| RequestThrows (error : Error)
| EmitError (error : Error)
| EmitResponse (httpResponse : IncomingMessage) (response_error : option Error).

Record IActorHttpOutput : Type := {
  out_body : string;
  out_headers : Headers;
  ok : bool;
  redirected : bool;
  status : Z;
  out_url : option string;
}.

(** [options.url !== httpResponse.responseUrl] *)
Definition url_differs (u : option RequestInfo) (responseUrl : string) : bool :=
  match u with
  | Some (InputString s) => negb (String.eqb s responseUrl)
  | _ => true
  end.

Section Actor.
(** The two context keys are exported by [@comunica/bus-http]. *)
Variables KEY_CONTEXT_INCLUDE_CREDENTIALS KEY_CONTEXT_AUTH : string.

(** The actor, with what it reaches from [run]: its user agent, the
    [createRequest] of its requester, and the global [Headers] class, of
    which [Headers_refuses name value] is the [TypeError] that the
    constructor and [append] throw for a name and a value, if any. *)
Record ActorHttpNative : Type := {
  userAgent : string;
  createRequest : Options → RequestEvents;
  Headers_refuses : string → string → option Error;
}.

(** [action.context && action.context.get(key)], as a condition. *)
Definition context_truthy (action : IActionHttp) (key : string) : bool :=
  match context action with
  | None => false
  | Some ctx =>
      match ctx !! key with
      | None => false
      | Some v => truthy v
      end
  end.

(** The options of the request as [run(action)] has them before it looks
    for a user agent. *)
Definition inputOptions (action : IActionHttp) : Options :=
  let options := emptyOptions in
  let options :=
    match input action with
    | InputRequest r =>
        if negb (String.eqb (url r) "")
        then assign_request (set_url options (InputString (url r))) r
        else set_url options (input action)
    | InputString _ => set_url options (input action)
    end in
  let options :=
    match init action with
    | Some i =>
        set_headers (assign_init options i) (Some (new_Headers (init_headers i)))
    | None =>
        set_headers options
          match input action with
          | InputRequest r => headers r
          | InputString _ => None
          end
    end in
  let options :=
    match opt_headers options with
    | None => set_headers options (Some (new_Headers None))
    | Some _ => options
    end in
  options.

(** The first part of [run(action)]: the options of the request, as they
    are built when no call of the [Headers] class throws. *)
Definition requestOptions (self : ActorHttpNative) (action : IActionHttp) : Options :=
  let options := inputOptions action in
  let options :=
    if negb (Headers_has (default [] (opt_headers options)) "user-agent")
    then set_headers options
           (Some (Headers_append (default [] (opt_headers options))
                                 "user-agent" (userAgent self)))
    else options in
  let options :=
    set_method options
      (match opt_method options with
       | Some m => if String.eqb m "" then Some "GET" else Some m
       | None => Some "GET"
       end) in
  let options :=
    if context_truthy action KEY_CONTEXT_INCLUDE_CREDENTIALS
    then set_withCredentials options (Some (CtxBoolean true))
    else options in
  let options :=
    if context_truthy action KEY_CONTEXT_AUTH
    then set_auth options (context action ≫= (.!! KEY_CONTEXT_AUTH))
    else options in
  options.

(** The calls of the [Headers] class on the way, and what they throw:
    [new Headers(action.init.headers)] when there is an [init], and the
    [append] of the actor's user agent when the headers name none. *)
Definition headersChecks (self : ActorHttpNative) (action : IActionHttp) : Completion () :=
  _ ← match init action with
      | Some i => Headers_check (Headers_refuses self) (default [] (init_headers i))
      | None => Normal ()
      end;
  if negb (Headers_has (default [] (opt_headers (inputOptions action))) "user-agent")
  then Headers_check (Headers_refuses self) [("user-agent", userAgent self)]
  else Normal ().

(** The [result] built once the response has arrived. *)
Definition responseOutput (options : Options) (httpResponse : IncomingMessage)
    : IActorHttpOutput :=
  let headers := response_headers httpResponse in
  {| out_body := response_body httpResponse;
     out_headers := headers;
     ok := statusCode httpResponse <? 300;
     redirected := url_differs (opt_url options) (responseUrl httpResponse);
     status := statusCode httpResponse;
     out_url :=
       if Headers_has headers "content-location"
       then Headers_get headers "content-location"
       else Some (responseUrl httpResponse) |}.

(** The requests made through the requester. *)
Inductive Call : Type :=
| CallCreateRequest (options : Options).

(** [run(action)]: a [TypeError] of the [Headers] class rejects the promise
    before anything is requested.  Otherwise the options are handed to the
    requester; the promise rejects when [createRequest] throws and on an
    error of the request or of the response, and resolves with the result
    built from the response otherwise. *)
Definition run (self : ActorHttpNative) (action : IActionHttp)
    : Traced Call IActorHttpOutput :=
  _ ← await (headersChecks self action);
  let options := requestOptions self action in
  events ← call (CallCreateRequest options) (createRequest self options);
  match events with
  | RequestThrows error => throw error
  | EmitError error => throw error
  | EmitResponse httpResponse (Some error) => throw error
  | EmitResponse httpResponse None => mret (responseOutput options httpResponse)
  end.
End Actor.

End HttpNative.

(** ** [Runner] *)
Module RunnerModel.
Import Js.

Section Runner.
Context {IActionInit IActorTest IActorOutputInit : Type}.

(** An actor of the init bus, as far as the runner uses it. *)
Record ActorInit : Type := {
  name : string;
  test : IActionInit → Promise IActorTest;
  runObservable : IActionInit → Promise IActorOutputInit;
}.

(** [IActorReply] *)
Record IActorReply : Type := {
  actor : ActorInit;
  reply : Promise IActorTest;
}.

Record Bus : Type := {
  publish : IActionInit → list IActorReply;
}.

(** Modelled from the spec: [Bus] is declared in [@comunica/core], outside
    the sources; by section 4.1 a bus holds an ordered set of actors and
    [publish(action)] returns, for each actor, its pending test reply. *)
Definition new_Bus (actors : list ActorInit) : Bus :=
  {| publish := fun action =>
       map (fun a => {| actor := a; reply := test a action |}) actors |}.

Record Runner : Type := {
  busInit : Bus;
  actors : list ActorInit;
}.

(** The calls of [runObservable], in the order they are made. *)
Inductive Call : Type :=
| CallRunObservable (on : ActorInit) (action : IActionInit).

(** [actor.runObservable(action)]: the call is made, its promise is the value. *)
Definition call_runObservable (a : ActorInit) (action : IActionInit)
    : Traced Call (Promise IActorOutputInit) :=
  call (CallRunObservable a action) (runObservable a action).

(** [run(action)].  The replies are objects, not promises, so the first
    [Promise.all] hands them back as they are; [map] calls
    [runObservable] on each of them before anything is awaited. *)
Definition run (self : Runner) (action : IActionInit)
    : Traced Call (list IActorOutputInit) :=
  replies ← await (Promise_all (map Normal (publish (busInit self) action)));
  outputs ← array_map (fun reply => call_runObservable (actor reply) action) replies;
  await (Promise_all outputs).
End Runner.
Arguments ActorInit : clear implicits.
Arguments IActorReply : clear implicits.
Arguments Bus : clear implicits.
Arguments Runner : clear implicits.
Arguments Call : clear implicits.

End RunnerModel.

(** ** [ActorRdfJoin]: the variables of a join *)
Module JoinVariables.
Import Js Rdf RdfJoin.

(** [array.includes(el)] *)
Definition includes (array : list string) (el : string) : bool :=
  existsb (String.eqb el) array.

(** [ActorRdfJoin.overlappingVariables(action)].  Without entries
    [variables[0]] is [undefined], the loop has nothing to run over and
    [undefined] is returned: [None]. *)
Definition overlappingVariables (action : IActionRdfJoin) : option (list string) :=
  let variables := map RdfJoin.variables (entries action) in
  match variables with
  | [] => None
  | first :: rest =>
      Some (fold_left
              (fun baseArray array => List.filter (fun el => includes array el) baseArray)
              rest first)
  end.

(** [[ ...new Set(array) ]]: the elements in the order of their first
    occurrence. *)
Definition spread_Set (array : list string) : list string :=
  fold_left (fun set el => if includes set el then set else set ++ [el]) array [].

(** [ActorRdfJoin.joinVariables(action)] *)
Definition joinVariables (action : IActionRdfJoin) : list string :=
  let variables := map RdfJoin.variables (entries action) in
  let withDuplicates := fold_left (fun acc it => acc ++ it) variables [] in
  spread_Set withDuplicates.

End JoinVariables.

(** ** [Runner]: the life cycle of the actors *)
Module RunnerLifecycle.
Import Js RunnerModel.

Section Lifecycle.
Context {IActionInit IActorTest IActorOutputInit IAny : Type}.

(** The [initialize] and [deinitialize] methods of the actors, by the way
    their promises settle. *)
Variables initializeOf deinitializeOf
  : ActorInit IActionInit IActorTest IActorOutputInit → Promise IAny.

Inductive LifecycleCall : Type :=
| CallInitialize (on : ActorInit IActionInit IActorTest IActorOutputInit)
| CallDeinitialize (on : ActorInit IActionInit IActorTest IActorOutputInit).

(** [initialize()] *)
Definition initialize (self : Runner IActionInit IActorTest IActorOutputInit)
    : Traced LifecycleCall bool :=
  promises ← array_map (fun actor => call (CallInitialize actor) (initializeOf actor))
                       (actors self);
  _ ← await (Promise_all promises);
  mret true.

(** [deinitialize()] *)
Definition deinitialize (self : Runner IActionInit IActorTest IActorOutputInit)
    : Traced LifecycleCall bool :=
  promises ← array_map (fun actor => call (CallDeinitialize actor) (deinitializeOf actor))
                       (actors self);
  _ ← await (Promise_all promises);
  mret true.
End Lifecycle.

End RunnerLifecycle.

(** ** [ActorRdfResolveQuadPattern]: the data sources of a context *)
Module ResolveQuadPattern.
Import Js.

Definition KEY_CONTEXT_SOURCES : string := "@comunica/bus-rdf-resolve-quad-pattern:sources".
Definition KEY_CONTEXT_SOURCE : string := "@comunica/bus-rdf-resolve-quad-pattern:source".

(** An [RDF.Source]: an object with a [match] method. *)
Inductive RdfSource : Type :=
| RdfjsSource (id : nat).

(** The [value] of a data source. *)
Inductive SourceValue : Type :=
| ValueString (s : string)
| ValueSource (source : RdfSource).

(** [IDataSource], and the entries of an [ActionContext]: a data source, an
    array of data sources, or a value of another kind. *)
Inductive IDataSource : Type :=
| SourceString (s : string)
| SourceRdfjs (source : RdfSource)
| SourceRecord (type : option string) (value : SourceValue)
    (context : option (gmap string ContextEntry))
with ContextEntry : Type :=
| EntrySource (dataSource : IDataSource)
| EntrySources (dataSources : list IDataSource)
| EntryOther (v : Value).

Abbreviation ActionContext := (gmap string ContextEntry) (only parsing).

(** [isDataSourceRawType(dataSource)] *)
Definition isDataSourceRawType (dataSource : IDataSource) : bool :=
  match dataSource with
  | SourceString _ => true
  | SourceRdfjs _ => true
  | SourceRecord _ _ _ => false
  end.

(** [getDataSourceType(dataSource)] *)
Definition getDataSourceType (dataSource : IDataSource) : option string :=
  match dataSource with
  | SourceString _ => Some ""
  | SourceRdfjs _ => Some "rdfjsSource"
  | SourceRecord type _ _ => type
  end.

(** [getDataSourceValue(dataSource)] *)
Definition getDataSourceValue (dataSource : IDataSource) : SourceValue :=
  match dataSource with
  | SourceString s => ValueString s
  | SourceRdfjs source => ValueSource source
  | SourceRecord _ value _ => value
  end.

(** [context.merge(other)]: the entries of [other] replace those of
    [context] under the same key. *)
Definition merge (context other : ActionContext) : ActionContext := other ∪ context.

(** [getDataSourceContext(dataSource, context)] *)
Definition getDataSourceContext (dataSource : IDataSource) (context : ActionContext)
    : ActionContext :=
  match dataSource with
  | SourceRecord _ _ (Some sourceContext) => merge context sourceContext
  | _ => context
  end.

(** Truthiness of a data source and of its value: only the empty string
    is falsy. *)
Definition source_truthy (dataSource : IDataSource) : bool :=
  match dataSource with
  | SourceString s => negb (String.eqb s "")
  | _ => true
  end.

Definition value_truthy (value : SourceValue) : bool :=
  match value with
  | ValueString s => negb (String.eqb s "")
  | ValueSource _ => true
  end.

(** [getContextSources(context)] *)
Definition getContextSources (context : option ActionContext) : option (list IDataSource) :=
  match context with
  | Some ctx =>
      match ctx !! KEY_CONTEXT_SOURCES with
      | Some (EntrySources dataSources) => Some dataSources
      | _ => None
      end
  | None => None
  end.

(** [getContextSource(context)] *)
Definition getContextSource (context : option ActionContext) : option IDataSource :=
  match context with
  | Some ctx =>
      match ctx !! KEY_CONTEXT_SOURCE with
      | Some (EntrySource dataSource) => Some dataSource
      | _ => None
      end
  | None => None
  end.

(** [fileUrl.indexOf('#')]: the position of the first hash, if any. *)
Fixpoint indexOf_hash (fileUrl : string) : option nat :=
  match fileUrl with
  | EmptyString => None
  | String c rest =>
      if Ascii.eqb c "#" then Some 0%nat else S <$> indexOf_hash rest
  end.

(** [fileUrl.slice(0, position)] *)
Definition slice_to (fileUrl : string) (position : nat) : string :=
  String.substring 0 position fileUrl.

(** [getContextSourceUrl(source)] *)
Definition getContextSourceUrl (source : option IDataSource) : option string :=
  match source with
  | Some dataSource =>
      if source_truthy dataSource then
        match getDataSourceValue dataSource with
        | ValueString fileUrl =>
            match indexOf_hash fileUrl with
            | Some hashPosition => Some (slice_to fileUrl hashPosition)
            | None => Some fileUrl
            end
        | ValueSource _ => None
        end
      else None
  | None => None
  end.

(** [hasContextSingleSource(context)] *)
Definition hasContextSingleSource (context : option ActionContext) : bool :=
  match getContextSource context with
  | Some source =>
      source_truthy source
      && (isDataSourceRawType source || value_truthy (getDataSourceValue source))
  | None => false
  end.

(** [hasContextSingleSourceOfType(requiredType, context)] *)
Definition hasContextSingleSourceOfType (requiredType : string)
    (context : option ActionContext) : bool :=
  match getContextSource context with
  | Some source =>
      source_truthy source
      && bool_decide (getDataSourceType source = Some requiredType)
      && value_truthy (getDataSourceValue source)
  | None => false
  end.

End ResolveQuadPattern.

(** ** [ActorSparqlSerializeTree]: the keys of the serialized bindings *)
Module SerializeTree.
Import Js Rdf.



End SerializeTree.

(** ** The vocabulary of the specification *)
Module Spec.
Import Js Rdf RdfJoin.

(** Two bindings are compatible when the terms of every variable they
    share are equal. *)
Definition compatible (a b : Bindings) : Prop :=
  ∀ k x y, a !! k = Some x → b !! k = Some y → equals x y = true.

(** They conflict when some shared variable has unequal terms. *)
Definition conflicting (a b : Bindings) : Prop :=
  ∃ k x y, a !! k = Some x ∧ b !! k = Some y ∧ equals x y = false.

(** [r] holds exactly the entries of [a] and of [b]. *)
Definition is_union (r a b : Bindings) : Prop :=
  ∀ k v, r !! k = Some v ↔ a !! k = Some v ∨ b !! k = Some v.

(** Modelled from the spec: the join actors that pair the bindings of two
    streams are separate packages, not among the sources.  Section 4.3
    gives the nested-loop one: for each left bindings, iterate the right
    and emit the merged compatibles.  The merge is [ActorRdfJoin.join]. *)
Definition nestedLoopJoin (left right : list Bindings) : list Bindings :=
  flat_map (fun l =>
              flat_map (fun r =>
                          match join [l; r] with
                          | Normal (Some merged) => [merged]
                          | _ => []
                          end) right) left.



(** Every entry has metadata that resolves and has the key. *)
Definition entries_report (key : string) (action : IActionRdfJoin) : Prop :=
  Forall (fun entry => ∃ m, metadata entry = Some (Normal m) ∧ is_Some (m !! key))
         (entries action).

End Spec.

(** ** The numbers on which the integer arithmetic is the code's *)
Module NumberSpec.
Import Js Spec.

(** [Number.MAX_SAFE_INTEGER], 2^53 - 1. *)
Definition MAX_SAFE_INTEGER : Z := 9007199254740991.

(** [Number.isSafeInteger], on an integer. *)
Definition safe_integer (z : Z) : Prop :=
  - MAX_SAFE_INTEGER ≤ z ≤ MAX_SAFE_INTEGER.

#[global] Instance safe_integer_dec z : Decision (safe_integer z).
Proof. unfold safe_integer. apply _. Defined.



End NumberSpec.

Module HttpSpec.
Import HttpNative.

(** The headers the request is built from: those of [init] when there is
    an [init], whatever the input is; without [init], those of a [Request]
    input. *)
Definition initialHeaders (action : IActionHttp) : Headers :=
  match init action with
  | Some i => new_Headers (init_headers i)
  | None =>
      match input action with
      | InputRequest r => default [] (headers r)
      | InputString _ => []
      end
  end.

(** [action.context.get(key)], when there is a context. *)
Definition context_get (action : IActionHttp) (key : string) : option ContextValue :=
  context action ≫= (.!! key).

(** The pairs handed to [new Headers] in [run]: the headers of [init]. *)
Definition initPairs (action : IActionHttp) : list (string * string) :=
  match init action with
  | Some i => default [] (init_headers i)
  | None => []
  end.

End HttpSpec.

(** ** More vocabulary: joins of several bindings *)
Module JoinSpec.
Import Js Rdf RdfJoin Spec.

(** Every two bindings of the list are compatible. *)
Definition pairwise_compatible (bs : list Bindings) : Prop :=
  ∀ a b, a ∈ bs → b ∈ bs → compatible a b.

(** Two bindings of the list conflict. *)
Definition some_conflict (bs : list Bindings) : Prop :=
  ∃ a b, a ∈ bs ∧ b ∈ bs ∧ conflicting a b.

(** [r] holds exactly the entries of the bindings of the list. *)
Definition union_of (r : Bindings) (bs : list Bindings) : Prop :=
  ∀ k v, r !! k = Some v ↔ ∃ b, b ∈ bs ∧ b !! k = Some v.

End JoinSpec.

(** ** Sample data, on which the properties are run *)
Module Examples.

Section JoinData.
Import Js Rdf RdfJoin.

Definition bindings_x1 : Bindings := {[ "?x" := NamedNode "http://ex/1" ]}.

Definition bindings_x1_y2 : Bindings :=
  <[ "?y" := Literal "2" "http://www.w3.org/2001/XMLSchema#integer" None ]> bindings_x1.

Definition bindings_x3 : Bindings := {[ "?x" := NamedNode "http://ex/3" ]}.

(** An entry over [?x] whose metadata reports [n] items. *)
Definition entry_of (n : Z) (stream : list Bindings) : IActorQueryOperationOutputBindings :=
  {| type := "bindings";
     bindingsStream := stream;
     metadata := Some (Normal {[ "totalItems" := JNumber (Fin n) ]});
     variables := ["?x"] |}.

Definition joined_without_metadata : IActorQueryOperationOutputBindings :=
  {| type := "bindings"; bindingsStream := [bindings_x1_y2];
     metadata := None; variables := ["?x"; "?y"] |}.

Definition actor_without_limit : ActorRdfJoin :=
  new_ActorRdfJoin "actor" None None
    (fun _ => Normal joined_without_metadata) (fun _ => Normal (Fin 6)).

(** An actor that joins at least two streams. *)
Definition actor_at_least_2 : ActorRdfJoin :=
  new_ActorRdfJoin "actor" (Some (Fin 2)) (Some true)
    (fun _ => Normal joined_without_metadata) (fun _ => Normal (Fin 6)).

(** An actor that joins at most two streams. *)
Definition actor_at_most_2 : ActorRdfJoin :=
  new_ActorRdfJoin "actor" (Some (Fin 2)) None
    (fun _ => Normal joined_without_metadata) (fun _ => Normal (Fin 6)).

Definition action_0 : IActionRdfJoin := {| entries := [] |}.

Definition action_1 : IActionRdfJoin :=
  {| entries := [entry_of 2 [bindings_x1; bindings_x3]] |}.

Definition action_2_3 : IActionRdfJoin :=
  {| entries := [entry_of 2 [bindings_x1; bindings_x3];
                 entry_of 3 [bindings_x1_y2; bindings_x1_y2; bindings_x1_y2]] |}.

Definition action_2_3_1 : IActionRdfJoin :=
  {| entries := entries action_2_3 ++ entries action_1 |}.
End JoinData.

Section SliceData.
Import Js Rdf QuerySlice.

Definition four_bindings : list Bindings :=
  [bindings_x1; bindings_x3; bindings_x1_y2; bindings_x1].

(** A child operation delivering four bindings, with two metadata keys. *)
Definition child_of_four : IActorQueryOperationOutputStream :=
  OutputBindings four_bindings
    (Some (Normal (<["pageSize" := JNumber (Fin 100)]> {[ "totalItems" := JNumber (Fin 4) ]})))
    ["?x"; "?y"].

Definition slice_actor : ActorQueryOperationSlice () :=
  {| mediatorQueryOperation := fun _ => Normal child_of_four |}.

(** LIMIT 2 OFFSET 1 *)
Definition limit_2_offset_1 : Slice () :=
  {| input := (); start := Fin 1; length := Some (Fin 2) |}.

(** A slice whose length is negative. *)
Definition negative_length : Slice () :=
  {| input := (); start := Fin 0; length := Some (Fin (-1)) |}.
End SliceData.

Section HttpData.
Import Js HttpNative.

Definition key_credentials : string := "@comunica/bus-http:include-credentials".

Definition key_auth : string := "@comunica/bus-http:auth".

Definition response_203 : IncomingMessage :=
  {| statusCode := 203;
     responseUrl := "http://ex/data";
     response_headers := [("content-type", "text/turtle");
                          ("content-location", "http://ex/data.ttl")];
     response_body := "" |}.

(** An actor whose requester answers every request with [response_203],
    under a [Headers] class that refuses the empty name. *)
Definition native_actor : ActorHttpNative :=
  {| userAgent := "Comunica/actor-http-native";
     createRequest := fun _ => EmitResponse response_203 None;
     Headers_refuses := fun name _ =>
       if String.eqb name ""
       then Some (TypeErr "Invalid header name")
       else None |}.

Definition action_with_context : IActionHttp :=
  {| input := InputString "http://ex/data";
     init := Some {| init_method := None;
                     init_headers := Some [("Accept", "text/turtle")];
                     init_body := None;
                     init_withCredentials := None;
                     init_auth := None |};
     context := Some (<[key_credentials := CtxBoolean true]>
                        {[ key_auth := CtxString "user:password" ]}) |}.
(** A [Request] that names its own user agent. *)
Definition request_with_user_agent : Request :=
  {| url := "http://ex/data"; method := Some "HEAD";
     headers := Some [("user-agent", "custom/1.0")]; body := None |}.

Definition action_with_request : IActionHttp :=
  {| input := InputRequest request_with_user_agent; init := None; context := None |}.

(** The same request, with an [init] that has no headers. *)
Definition action_with_request_and_init : IActionHttp :=
  {| input := InputRequest request_with_user_agent;
     init := Some {| init_method := Some "GET"; init_headers := None; init_body := None;
                     init_withCredentials := None; init_auth := None |};
     context := None |}.

(** An action whose [init] asks for credentials, without a context. *)
Definition action_with_init_credentials : IActionHttp :=
  {| input := InputString "http://ex/data";
     init := Some {| init_method := None; init_headers := None; init_body := None;
                     init_withCredentials := Some (CtxBoolean true);
                     init_auth := Some (CtxString "user:password") |};
     context := None |}.

(** An action whose [init] has a header without a name. *)
Definition action_with_illegal_header : IActionHttp :=
  {| input := InputString "http://ex/data";
     init := Some {| init_method := None;
                     init_headers := Some [("Accept", "text/turtle"); ("", "nameless")];
                     init_body := None;
                     init_withCredentials := None; init_auth := None |};
     context := None |}.
End HttpData.

Section RunnerData.
Import Js RunnerModel.

(** Two init actors: the test of the first fails, the second passes. *)
Definition failing_test_actor : ActorInit () nat string :=
  {| name := "first"; test := fun _ => Throw (Err "cannot handle");
     runObservable := fun _ => Normal "first ran" |}.

Definition passing_test_actor : ActorInit () nat string :=
  {| name := "second"; test := fun _ => Normal 1%nat;
     runObservable := fun _ => Normal "second ran" |}.

Definition two_actor_runner : Runner () nat string :=
  {| busInit := new_Bus [failing_test_actor; passing_test_actor];
     actors := [failing_test_actor; passing_test_actor] |}.
End RunnerData.

End Examples.

(** ** More sample data *)
Module MoreExamples.

Section JoinData.
Import Js Rdf RdfJoin.

(** An entry that is not a bindings stream. *)
Definition quads_entry : IActorQueryOperationOutputBindings :=
  {| type := "quads"; bindingsStream := []; metadata := None; variables := [] |}.

(** An empty entry over the given variables. *)
Definition entry_over (variables : list string) : IActorQueryOperationOutputBindings :=
  {| type := "bindings"; bindingsStream := []; metadata := None; variables := variables |}.
End JoinData.

Section HttpData.
Import Js HttpNative.

(** An action whose [init] names a user agent, in mixed case. *)
Definition action_with_upper_case_agent : IActionHttp :=
  {| input := InputString "http://ex/data";
     init := Some {| init_method := Some "POST";
                     init_headers := Some [("Accept", "text/turtle");
                                           ("User-Agent", "custom/1.0")];
                     init_body := Some "query";
                     init_withCredentials := None;
                     init_auth := None |};
     context := None |}.
End HttpData.

Section SourceData.
Import Js ResolveQuadPattern.

(** A file source whose URL has a fragment. *)
Definition source_with_fragment : IDataSource :=
  SourceRecord (Some "file") (ValueString "http://ex/data.ttl#me") None.

Definition context_with_file_source : gmap string ContextEntry :=
  {[ KEY_CONTEXT_SOURCE := EntrySource source_with_fragment ]}.
End SourceData.

End MoreExamples.

(** * Properties *)

(** One step of a method body in [Traced]: the calls and the awaits are
    unfolded and the binds between them reduced. *)
Ltac traced_steps :=
  unfold Js.call, Js.await, Js.throw; unfold mbind, Js.Traced_bind; cbn beta iota.

(** ** Terms and the merge of bindings *)
Section JoinFacts.
Import Js Rdf RdfJoin Spec.

Lemma language_eqb_eq l1 l2 : language_eqb l1 l2 = true ↔ l1 = l2.
Proof.
  destruct l1, l2; simpl; rewrite ?String.eqb_eq; split; congruence.
Qed.

(** [equals] decides the structural equality of terms. *)
Lemma equals_eq (left right : Term) : equals left right = true ↔ left = right.
Proof.
  destruct left, right; simpl;
    rewrite ?andb_true_iff, ?String.eqb_eq, ?language_eqb_eq;
    split; try congruence; try tauto.
  - intros [[-> ->] ->]. done.
  - intros [= -> -> ->]. done.
Qed.

Lemma equals_sym (left right : Term) : equals left right = equals right left.
Proof.
  destruct (equals left right) eqn:E1, (equals right left) eqn:E2; try done.
  - apply equals_eq in E1 as ->. rewrite (proj2 (equals_eq _ _) eq_refl) in E2. done.
  - apply equals_eq in E2 as ->. rewrite (proj2 (equals_eq _ _) eq_refl) in E1. done.
Qed.

Lemma compatible_sym a b : compatible a b → compatible b a.
Proof. intros H k x y Hb Ha. rewrite equals_sym. eauto. Qed.

Lemma conflicting_not_compatible a b : conflicting a b → ¬ compatible a b.
Proof.
  intros (k & x & y & Ha & Hb & Hne) Hc. specialize (Hc k x y Ha Hb). congruence.
Qed.

Lemma compatible_or_conflicting a b : compatible a b ∨ conflicting a b.
Proof.
  induction a as [|k x a Hk IH] using map_ind.
  - left. intros k x y Hk. by rewrite lookup_empty in Hk.
  - destruct IH as [IH|(k' & x' & y' & Ha & Hb & Hne)].
    + destruct (b !! k) as [y|] eqn:Hb.
      * destruct (equals x y) eqn:E.
        -- left. intros k' x' y' Ha' Hb'.
           destruct (decide (k = k')) as [<-|Hne].
           ++ rewrite lookup_insert_eq in Ha'. congruence.
           ++ rewrite lookup_insert_ne in Ha' by done. eauto.
        -- right. exists k, x, y. by rewrite lookup_insert_eq.
      * left. intros k' x' y' Ha' Hb'.
        destruct (decide (k = k')) as [<-|Hne]; [congruence|].
        rewrite lookup_insert_ne in Ha' by done. eauto.
    + right. exists k', x', y'. split_and!; try done.
      rewrite lookup_insert_ne; [done|]. intros ->. congruence.
Qed.

Lemma compatible_union_commute a b : compatible a b → a ∪ b = b ∪ a.
Proof.
  intros Hc. apply map_eq. intros k.
  rewrite !lookup_union.
  destruct (a !! k) as [x|] eqn:Ha, (b !! k) as [y|] eqn:Hb; simpl; try done.
  assert (x = y) as -> by (apply equals_eq; eauto). done.
Qed.

Lemma compatible_is_union a b : compatible a b → is_union (a ∪ b) a b.
Proof.
  intros Hc k v. rewrite lookup_union_Some_raw. split.
  - intros [?|[? ?]]; auto.
  - intros [Ha|Hb]; [by left|].
    destruct (a !! k) as [x|] eqn:Ha; [|by right].
    left. assert (x = v) as -> by (apply equals_eq; eauto). done.
Qed.

(** What [mergeWith] computes with the callback of [join]. *)
Lemma mergeWith_join_merger (acc val : Bindings) :
  (compatible acc val ∧ mergeWith join_merger acc val = Normal (acc ∪ val))
  ∨ (conflicting acc val ∧ mergeWith join_merger acc val = Throw (Err "Join failure")).
Proof.
  unfold mergeWith.
  apply (map_fold_weak_ind
           (fun (r : Completion Bindings) (m : gmap string Term) =>
              (compatible acc m ∧ r = Normal (acc ∪ m))
              ∨ (conflicting acc m ∧ r = Throw (Err "Join failure")))).
  - left. split.
    + intros k x y _ Hk. by rewrite lookup_empty in Hk.
    + by rewrite (right_id_L ∅ (∪)).
  - intros i x m r Hi [[Hc ->]|[(k & x' & y' & Ha & Hb & Hne) ->]].
    + simpl. rewrite lookup_union_l by done.
      destruct (acc !! i) as [existing|] eqn:Hacc.
      * unfold join_merger. destruct (equals existing x) eqn:E; cbn.
        -- left. apply equals_eq in E as <-. split.
           ++ intros k x' y' Ha Hb.
              destruct (decide (i = k)) as [<-|Hne].
              ** rewrite lookup_insert_eq in Hb. apply equals_eq. congruence.
              ** rewrite lookup_insert_ne in Hb by done. eauto.
           ++ f_equal. apply map_eq. intros k.
              destruct (decide (i = k)) as [<-|Hne].
              ** rewrite lookup_insert_eq, lookup_union_l' by (by rewrite Hacc).
                 by rewrite Hacc.
              ** rewrite lookup_insert_ne by done.
                 rewrite !lookup_union, lookup_insert_ne by done. done.
        -- right. split; [|done]. exists i, existing, x.
           by rewrite lookup_insert_eq.
      * left. split.
        -- intros k x' y' Ha Hb.
           destruct (decide (i = k)) as [<-|Hne]; [congruence|].
           rewrite lookup_insert_ne in Hb by done. eauto.
        -- f_equal. by rewrite insert_union_r.
    + right. split; [|done]. exists k, x', y'. split_and!; try done.
      rewrite lookup_insert_ne; [done|]. intros ->. congruence.
Qed.

Lemma join_pair_compatible a b : compatible a b → join [a; b] = Normal (Some (a ∪ b)).
Proof.
  intros Hc. unfold join, reduce1. cbn.
  destruct (mergeWith_join_merger a b) as [[_ ->]|[Hx _]]; [done|].
  by apply conflicting_not_compatible in Hx.
Qed.

Lemma join_pair_conflicting a b : conflicting a b → join [a; b] = Normal None.
Proof.
  intros Hx. unfold join, reduce1. cbn.
  destruct (mergeWith_join_merger a b) as [[Hc _]|[_ ->]]; [|done].
  by apply conflicting_not_compatible in Hx.
Qed.

Lemma conflicting_sym a b : conflicting a b → conflicting b a.
Proof.
  intros (k & x & y & Ha & Hb & Hne). exists k, y, x. by rewrite equals_sym.
Qed.

Lemma join_pair_comm a b : join [a; b] = join [b; a].
Proof.
  destruct (compatible_or_conflicting a b) as [Hc|Hx].
  - rewrite (join_pair_compatible a b Hc).
    rewrite (join_pair_compatible b a (compatible_sym _ _ Hc)).
    by rewrite (compatible_union_commute a b Hc).
  - rewrite (join_pair_conflicting a b Hx).
    by rewrite (join_pair_conflicting b a (conflicting_sym _ _ Hx)).
Qed.

Lemma join_never_throws (bindings : list Bindings) : ∃ r, join bindings = Normal r.
Proof.
  unfold join, try_catch.
  destruct (reduce1 _ bindings) as [r|e]; cbn; eauto.
Qed.
End JoinFacts.

(** ** Pairing two streams *)
Section NestedLoop.
Import Js Rdf RdfJoin Spec.

Lemma flat_map_nil_const {X Y} (l : list X) : flat_map (fun _ => @nil Y) l = [].
Proof. induction l; simpl; auto. Qed.

Lemma flat_map_app_fun {X Y} (g h : X → list Y) (l : list X) :
  flat_map (fun x => g x ++ h x) l ≡ₚ flat_map g l ++ flat_map h l.
Proof.
  induction l as [|x l IH]; simpl; [done|].
  rewrite IH. rewrite <- !(assoc_L (++)). f_equiv.
  rewrite !(assoc_L (++)). f_equiv. apply Permutation_app_comm.
Qed.

Lemma flat_map_swap {X Y Z} (f : X → Y → list Z) (xs : list X) (ys : list Y) :
  flat_map (fun x => flat_map (fun y => f x y) ys) xs
  ≡ₚ flat_map (fun y => flat_map (fun x => f x y) xs) ys.
Proof.
  induction xs as [|x xs IH]; simpl.
  - by rewrite flat_map_nil_const.
  - rewrite flat_map_app_fun, IH. done.
Qed.

Lemma nestedLoopJoin_comm (A B : list Bindings) :
  nestedLoopJoin A B ≡ₚ nestedLoopJoin B A.
Proof.
  unfold nestedLoopJoin. rewrite flat_map_swap.
  erewrite flat_map_ext; [reflexivity|]. intros b.
  apply flat_map_ext. intros a.
  by rewrite (join_pair_comm a b).
Qed.
End NestedLoop.

(** ** The claims on [ActorRdfJoin.join] *)
Section JoinClaims.
Import Js Rdf RdfJoin Spec Examples.

(** C3.  [ActorRdfJoin.join] on two bindings returns their union when they
    are compatible, returns [null] when some shared variable is mapped to
    unequal terms, and completes normally whatever it is given: the error
    raised inside the merge never reaches the caller. *)
Theorem join_union_or_null (a b : Bindings) :
  (compatible a b →
     ∃ r, join [a; b] = Normal (Some r) ∧ is_union r a b)
  ∧ (conflicting a b → join [a; b] = Normal None)
  ∧ (∀ bindings : list Bindings, ∃ r, join bindings = Normal r).
Proof.
  split_and!.
  - intros Hc. exists (a ∪ b). split.
    + by apply join_pair_compatible.
    + by apply compatible_is_union.
  - apply join_pair_conflicting.
  - apply join_never_throws.
Qed.

Lemma join_union_or_null_witness :
  (∃ r, join [bindings_x1; bindings_x1_y2] = Normal (Some r)
        ∧ is_union r bindings_x1 bindings_x1_y2)
  ∧ join [bindings_x1; bindings_x3] = Normal None.
Proof.
  split.
  - apply (proj1 (join_union_or_null bindings_x1 bindings_x1_y2)).
    intros k x y Ha Hb. unfold bindings_x1_y2, bindings_x1 in *.
    apply lookup_singleton_Some in Ha as [<- <-].
    rewrite lookup_insert_ne in Hb by done.
    apply lookup_singleton_Some in Hb as [_ <-]. reflexivity.
  - apply (proj1 (proj2 (join_union_or_null bindings_x1 bindings_x3))).
    exists "?x", (NamedNode "http://ex/1"), (NamedNode "http://ex/3").
    split_and!; reflexivity.
Defined.

(** C2.  Joining commutes.  The bindings obtained by pairing the streams
    [A] and [B] are, as a multiset, those obtained by pairing [B] and [A];
    and [ActorRdfJoin.join(a, b)] is [ActorRdfJoin.join(b, a)]: one is
    [null] exactly when the other is, and otherwise both are the same
    map from variables to terms. *)
Theorem join_commutes (A B : list Bindings) :
  nestedLoopJoin A B ≡ₚ nestedLoopJoin B A
  ∧ (∀ a b : Bindings,
       join [a; b] = join [b; a]
       ∧ (join [a; b] = Normal None ↔ join [b; a] = Normal None)
       ∧ (∀ r r', join [a; b] = Normal (Some r) → join [b; a] = Normal (Some r') →
                  ∀ k, r !! k = r' !! k)).
Proof.
  split; [apply nestedLoopJoin_comm|].
  intros a b. pose proof (join_pair_comm a b) as Hcomm. split_and!.
  - done.
  - by rewrite Hcomm.
  - intros r r' Hr Hr' k. rewrite Hcomm in Hr. congruence.
Qed.

Example nestedLoopJoin_example :
  nestedLoopJoin [bindings_x1; bindings_x3] [bindings_x1_y2] = [bindings_x1_y2]
  ∧ nestedLoopJoin [bindings_x1_y2] [bindings_x1; bindings_x3] = [bindings_x1_y2].
Proof. split; vm_compute; reflexivity. Qed.
End JoinClaims.

(** ** Arithmetic of the number model *)
Section NumberFacts.
Import Js Spec.




Lemma mul_comm a b : mul a b = mul b a.
Proof.
  destruct a as [| |x|], b as [| |y|]; simpl; try done;
    try (destruct x; simpl; try done);
    try (destruct y; simpl; try done);
    f_equal; lia.
Qed.


End NumberFacts.

(** ** [test] and [run] of the abstract join actor *)
Section RunFacts.
Import Js Rdf RdfJoin Spec.

Lemma iteratorsHaveMetadata_entries (es : list IActorQueryOperationOutputBindings) key :
  Forall (fun entry => ∃ m, metadata entry = Some (Normal m) ∧ is_Some (m !! key)) es →
  Promise_all
    (map (fun entry =>
            match metadata entry with
            | None => Throw (Err "Missibg metadata")
            | Some thunk =>
                metadata ← thunk;
                if negb (has_key key metadata)
                then Throw (Err "Missing metadata value")
                else Normal ()
            end) es) = Normal (map (fun _ => ()) es).
Proof.
  induction 1 as [|entry es (m & Hm & Hkey) _ IH]; [done|].
  cbn [map Promise_all]. rewrite IH, Hm. unfold has_key. simpl.
  by rewrite bool_decide_eq_true_2.
Qed.

Lemma iteratorsHaveMetadata_true action key :
  entries_report key action → iteratorsHaveMetadata action key = Normal true.
Proof.
  intros H. unfold iteratorsHaveMetadata.
  by rewrite (iteratorsHaveMetadata_entries _ _ H).
Qed.

(** The converse: [iteratorsHaveMetadata] never rejects, and answers
    [true] only when every entry reports the key. *)
Lemma iteratorsHaveMetadata_total action key :
  iteratorsHaveMetadata action key = Normal true
  ∨ iteratorsHaveMetadata action key = Normal false.
Proof.
  unfold iteratorsHaveMetadata, try_catch.
  destruct (Promise_all _); simpl; auto.
Qed.

Lemma iteratorsHaveMetadata_true_inv action key :
  iteratorsHaveMetadata action key = Normal true → entries_report key action.
Proof.
  unfold iteratorsHaveMetadata, entries_report.
  induction (entries action) as [|entry es IH]; simpl; [constructor|].
  destruct (metadata entry) as [[m|e]|] eqn:Hm; simpl; try discriminate.
  unfold has_key. destruct (bool_decide (is_Some (m !! key))) eqn:Hk; simpl; try discriminate.
  apply bool_decide_eq_true_1 in Hk.
  intros H. constructor; [eauto|]. apply IH.
  destruct (Promise_all _); simpl in *; done.
Qed.


End RunFacts.

(** ** The claims on [ActorRdfJoin.run] and [ActorRdfJoin.test] *)
Section RunClaims.
Import Js Rdf RdfJoin Spec NumberSpec Examples.

(** C1.  For an action without entries [run] resolves with an empty
    bindings stream, no variables and metadata reporting [totalItems] 0;
    for an action with one entry it resolves with that entry itself.  In
    both cases the record of calls is left as it was: the subclass's
    [getOutput] is not invoked. *)
Theorem run_empty_or_single (self : ActorRdfJoin) (calls : list Call) :
  (∃ out, run self {| entries := [] |} calls = (Normal out, calls)
          ∧ bindingsStream out = []
          ∧ variables out = []
          ∧ type out = "bindings"
          ∧ metadata out = Some (Normal {[ "totalItems" := JNumber (Fin 0) ]}))
  ∧ (∀ entry, run self {| entries := [entry] |} calls = (Normal entry, calls)).
Proof.
  split.
  - exists emptyOutput. by split_and!.
  - done.
Qed.


(** When the promise of [getOutput] rejects, so does [run]. *)
Lemma run_getOutput_rejects self action e calls :
  (2 ≤ length (entries action))%nat →
  getOutput self action = Throw e →
  run self action calls = (Throw e, calls ++ [CallGetOutput action]).
Proof.
  intros Hlen Hout. unfold run.
  destruct (entries action) as [|e1 [|e2 es]] eqn:Hes; simpl in Hlen; try lia.
  unfold call_getOutput, call, await.
  destruct (iteratorsHaveMetadata_total action "totalItems") as [-> | ->];
    by rewrite Hout.
Qed.

End RunClaims.

(** ** The claim on the entry-count limit *)
Section LimitClaims.
Import Js Rdf RdfJoin Spec Examples.

Lemma test_at_most_one self action calls :
  (length (entries action) ≤ 1)%nat →
  test self action calls = (Normal {| iterations := Fin 0 |}, calls).
Proof.
  intros Hlen. unfold test.
  by rewrite (proj2 (Nat.leb_le _ _) Hlen).
Qed.

(** C7, as the code has it.  An action whose number of entries violates
    the declared limit is rejected by [test] when it has at least two
    entries: [test] throws before any entry is looked at and without
    calling [getIterations].  An action with no or one entry passes
    [test] with 0 iterations, whatever the limit. *)
Theorem test_rejects_limit_violation (self : ActorRdfJoin) (action : IActionRdfJoin)
    (calls : list Call) :
  violatesLimit self (length (entries action)) = true →
  test self action calls =
    if (length (entries action) <=? 1)%nat
    then (Normal {| iterations := Fin 0 |}, calls)
    else (Throw (ErrLimitEntries (name self) (limitEntries self) (limitEntriesMin self)
                   (length (entries action))), calls).
Proof.
  intros Hv. unfold test.
  destruct (length (entries action) <=? 1)%nat; [done|].
  by rewrite Hv.
Qed.

Lemma test_rejects_limit_violation_witness :
  test actor_at_most_2 action_2_3_1 [] =
    (Throw (ErrLimitEntries "actor" (Fin 2) false 3), []).
Proof.
  apply (test_rejects_limit_violation actor_at_most_2 action_2_3_1 []).
  reflexivity.
Defined.

(** Read for every action, the rule fails: with one entry, and likewise
    with none, the entry count is below the lower limit 2, yet [test]
    passes, and [run] answers without calling [getOutput]. *)
Lemma test_limit_counterexample :
  violatesLimit actor_at_least_2 (length (entries action_1)) = true
  ∧ test actor_at_least_2 action_1 [] = (Normal {| iterations := Fin 0 |}, [])
  ∧ run actor_at_least_2 action_1 [] = (Normal (entry_of 2 [bindings_x1; bindings_x3]), [])
  ∧ violatesLimit actor_at_least_2 (length (entries action_0)) = true
  ∧ test actor_at_least_2 action_0 [] = (Normal {| iterations := Fin 0 |}, [])
  ∧ run actor_at_least_2 action_0 [] = (Normal emptyOutput, []).
Proof. split_and!; reflexivity. Qed.

Lemma test_limit_not_universal :
  ¬ (∀ self action calls,
       violatesLimit self (length (entries action)) = true →
       ∃ e calls', test self action calls = (Throw e, calls')).
Proof.
  intros H.
  destruct (H actor_at_least_2 action_1 [] eq_refl) as (e & calls' & Ht).
  discriminate Ht.
Qed.
End LimitClaims.

(** ** The slice operator *)
Section SliceFacts.
Import Js Rdf QuerySlice.
Context {Operation : Type}.

Lemma max_finite a b : max (Fin a) (Fin b) = Fin (Z.max a b).
Proof. unfold max, lt. destruct (Z.ltb_spec a b); f_equal; lia. Qed.

Lemma min_finite a b : min (Fin a) (Fin b) = Fin (Z.min a b).
Proof. unfold min, lt. destruct (Z.ltb_spec b a); f_equal; lia. Qed.

Lemma to_nat_max_0 z : Z.to_nat (Z.max z 0) = Z.to_nat z.
Proof. lia. Qed.

Lemma hasLength_finite (input : Operation) s L :
  hasLength {| input := input; start := s; length := Some (Fin L) |} = true.
Proof. unfold hasLength. simpl. by destruct L. Qed.

Lemma hasLength_absent (input : Operation) s :
  hasLength {| input := input; start := s; length := None |} = false.
Proof. done. Qed.

Lemma sliceStream_present {A} (stream : list A) (input : Operation) (s L : Z) :
  sliceStream stream {| input := input; start := Fin s; length := Some (Fin L) |}
  = take (Z.to_nat L) (drop (Z.to_nat s) stream).
Proof.
  unfold sliceStream. rewrite hasLength_finite.
  cbn [start length default add sub neg id].
  rewrite max_finite. unfold transform.
  rewrite !to_nat_max_0. f_equal. lia.
Qed.

Lemma sliceStream_absent {A} (stream : list A) (input : Operation) (s : Z) :
  sliceStream stream {| input := input; start := Fin s; length := None |}
  = drop (Z.to_nat s) stream.
Proof.
  unfold sliceStream. rewrite hasLength_absent.
  cbn. by rewrite to_nat_max_0.
Qed.

(** What [sliceMetadata] reports for a finite child total and a present
    finite length: the code clamps at zero first and takes the minimum
    with the length afterwards. *)
Lemma sliceMetadata_present (output : IActorQueryOperationOutputStream)
    (input : Operation) (m : Metadata) (s L T : Z) :
  output_metadata output = Some (Normal m) →
  m !! "totalItems" = Some (JNumber (Fin T)) →
  sliceMetadata output {| input := input; start := Fin s; length := Some (Fin L) |}
  = Some (Normal (<["totalItems" := JNumber (Fin (Z.min (Z.max 0 (T - s)) L))]> m)).
Proof.
  intros Hm HT. unfold sliceMetadata. rewrite Hm, hasLength_finite.
  cbn [mbind Completion_bind]. rewrite HT.
  cbn [default id isFinite toNumber Number_isFinite start length sub add neg].
  rewrite max_finite, min_finite.
  by replace (T + - s) with (T - s) by lia.
Qed.

Lemma sliceMetadata_absent (output : IActorQueryOperationOutputStream)
    (input : Operation) (m : Metadata) (s T : Z) :
  output_metadata output = Some (Normal m) →
  m !! "totalItems" = Some (JNumber (Fin T)) →
  sliceMetadata output {| input := input; start := Fin s; length := None |}
  = Some (Normal (<["totalItems" := JNumber (Fin (Z.max 0 (T - s)))]> m)).
Proof.
  intros Hm HT. unfold sliceMetadata. rewrite Hm, hasLength_absent.
  cbn [mbind Completion_bind]. rewrite HT.
  cbn [default id isFinite toNumber Number_isFinite start length sub add neg].
  rewrite max_finite.
  by replace (T + - s) with (T - s) by lia.
Qed.

(** For a length that is not negative the two orders of clamping agree. *)
Lemma clamp_order (s L T : Z) :
  0 ≤ L → Z.min (Z.max 0 (T - s)) L = Z.max 0 (Z.min L (T - s)).
Proof. lia. Qed.

(** On lengths that are not negative, [sliceMetadata] reports
    [max(0, min(L, T - s))]; without a length, [max(0, T - s)]; the other
    keys of the metadata are passed through. *)
Lemma sliceMetadata_totalItems (output : IActorQueryOperationOutputStream)
    (input : Operation) (m : Metadata) (s L T : Z) :
  output_metadata output = Some (Normal m) →
  m !! "totalItems" = Some (JNumber (Fin T)) →
  0 ≤ L →
  (∃ m', sliceMetadata output {| input := input; start := Fin s; length := Some (Fin L) |}
         = Some (Normal m')
         ∧ m' !! "totalItems" = Some (JNumber (Fin (Z.max 0 (Z.min L (T - s)))))
         ∧ ∀ k, k ≠ "totalItems" → m' !! k = m !! k)
  ∧ (∃ m', sliceMetadata output {| input := input; start := Fin s; length := None |}
           = Some (Normal m')
           ∧ m' !! "totalItems" = Some (JNumber (Fin (Z.max 0 (T - s))))
           ∧ ∀ k, k ≠ "totalItems" → m' !! k = m !! k).
Proof.
  intros Hm HT HL. split.
  - eexists. split; [by apply sliceMetadata_present|].
    rewrite lookup_insert_eq, clamp_order by done.
    split; [done|]. intros k Hk. by rewrite lookup_insert_ne.
  - eexists. split; [by apply sliceMetadata_absent|].
    rewrite lookup_insert_eq.
    split; [done|]. intros k Hk. by rewrite lookup_insert_ne.
Qed.
End SliceFacts.

(** ** The claims on [ActorQueryOperationSlice] *)
Section SliceClaims.
Import Js Rdf QuerySlice NumberSpec Examples.



(** Scenario 5 of the specification: LIMIT 2 OFFSET 1 over four bindings
    emits the second and the third, and the metadata reports 2 items. *)
Example slice_scenario :
  runOperation slice_actor limit_2_offset_1
  = Normal (OutputBindings [bindings_x3; bindings_x1_y2]
              (Some (Normal (<["pageSize" := JNumber (Fin 100)]>
                               {[ "totalItems" := JNumber (Fin 2) ]})))
              ["?x"; "?y"]).
Proof. vm_compute. reflexivity. Qed.

(** C5, at a negative length.  With start 0 and length -1 over a child
    that reports 4 items, the metadata of the slice reports [totalItems] -1,
    where [max(0, min(length, total - start))] is 0; the stream of the same
    slice is empty, since [sliceStream] does clamp its limit at 0. *)
Theorem sliceMetadata_negative_length :
  sliceMetadata child_of_four negative_length
  = Some (Normal (<["pageSize" := JNumber (Fin 100)]>
                    {[ "totalItems" := JNumber (Fin (-1)) ]}))
  ∧ Z.max 0 (Z.min (-1) (4 - 0)) = 0
  ∧ sliceStream four_bindings negative_length = []
  ∧ runOperation slice_actor negative_length
    = Normal (OutputBindings []
                (Some (Normal (<["pageSize" := JNumber (Fin 100)]>
                                 {[ "totalItems" := JNumber (Fin (-1)) ]})))
                ["?x"; "?y"]).
Proof. split_and!; vm_compute; reflexivity. Qed.
End SliceClaims.

(** ** The native HTTP actor *)
Section HttpFacts.
Import Js HttpNative HttpSpec.
Variables KEY_CONTEXT_INCLUDE_CREDENTIALS KEY_CONTEXT_AUTH : string.

Abbreviation requestOptions' :=
  (requestOptions KEY_CONTEXT_INCLUDE_CREDENTIALS KEY_CONTEXT_AUTH) (only parsing).

Lemma Headers_has_append_same headers name value :
  Headers_has (Headers_append headers name value) name = true.
Proof.
  unfold Headers_has, Headers_append. rewrite existsb_app. simpl.
  by rewrite String.eqb_refl, orb_true_r.
Qed.

Lemma Headers_append_neq headers name value :
  headers ≠ Headers_append headers name value.
Proof.
  unfold Headers_append. intros Heq. apply (f_equal List.length) in Heq.
  rewrite length_app in Heq. simpl in Heq. lia.
Qed.

Lemma Headers_has_get headers name :
  Headers_has headers name = true ↔ is_Some (Headers_get headers name).
Proof.
  unfold Headers_has, Headers_get.
  induction headers as [|entry headers IH]; simpl.
  - split; [done|]. by intros [? ?].
  - destruct (String.eqb (entry.1) (lower name)); simpl; [by eauto|].
    exact IH.
Qed.

Lemma context_truthy_get action key :
  context_truthy action key = true
  ↔ ∃ v, context_get action key = Some v ∧ truthy v = true.
Proof.
  unfold context_truthy, context_get.
  destruct (context action) as [ctx|]; simpl.
  - destruct (ctx !! key) as [v|]; simpl.
    + split; [eauto|]. by intros (? & [= <-] & ?).
    + split; [done|]. by intros (? & ? & ?).
  - split; [done|]. by intros (? & ? & ?).
Qed.

Lemma fold_append_map (l : list (string * string)) (acc : Headers) :
  fold_left (fun headers entry => Headers_append headers (fst entry) (snd entry)) l acc
  = acc ++ map (fun entry => (lower (fst entry), snd entry)) l.
Proof.
  revert acc. induction l as [|e l IH]; intros acc; simpl.
  - by rewrite (right_id_L [] (++)).
  - rewrite IH. unfold Headers_append. by rewrite <- (assoc_L (++)).
Qed.

Lemma new_Headers_map (l : list (string * string)) :
  new_Headers (Some l) = map (fun entry => (lower (fst entry), snd entry)) l.
Proof. unfold new_Headers. by rewrite fold_append_map. Qed.

Lemma new_Headers_entries (init : option (list (string * string))) :
  new_Headers init = map (fun entry => (lower (fst entry), snd entry)) (default [] init).
Proof. unfold new_Headers. by rewrite fold_append_map. Qed.

(** The headers of the request. *)
Lemma requestOptions_headers self action :
  opt_headers (requestOptions' self action) =
    Some (if Headers_has (initialHeaders action) "user-agent"
          then initialHeaders action
          else Headers_append (initialHeaders action) "user-agent" (userAgent self)).
Proof.
  unfold requestOptions, inputOptions, initialHeaders, assign_request.
  destruct action as [inp ini ctx]. cbn [input init context].
  destruct ini as [i|]; destruct inp as [s|r];
    try destruct (url r =? "")%string; try destruct (headers r) as [h|] eqn:Hh;
    simpl; rewrite ?Hh; simpl;
    try (destruct (Headers_has _ "user-agent") eqn:Hua; simpl);
    repeat case_match; simpl; rewrite ?Hua; done.
Qed.

(** The headers before the user agent is looked for. *)
Lemma inputOptions_headers action :
  opt_headers (inputOptions action) = Some (initialHeaders action).
Proof.
  unfold inputOptions, initialHeaders, assign_request.
  destruct action as [inp ini ctx]. cbn [input init context].
  destruct ini as [i|]; destruct inp as [s|r];
    try destruct (url r =? "")%string; try destruct (headers r) as [h|] eqn:Hh;
    simpl; rewrite ?Hh; done.
Qed.

(** The [withCredentials] field of the request. *)
Lemma requestOptions_withCredentials self action :
  opt_withCredentials (requestOptions' self action) =
    if context_truthy action KEY_CONTEXT_INCLUDE_CREDENTIALS
    then Some (CtxBoolean true)
    else init action ≫= init_withCredentials.
Proof.
  unfold requestOptions, inputOptions, assign_request.
  destruct action as [inp [[mi hi bi wi ai]|] ctx];
    cbn [input init context init_method init_headers init_body
         init_withCredentials init_auth];
    destruct (context_truthy _ KEY_CONTEXT_INCLUDE_CREDENTIALS);
    repeat case_match; simpl; try done; by destruct wi.
Qed.

(** The [auth] field of the request. *)
Lemma requestOptions_auth self action :
  opt_auth (requestOptions' self action) =
    if context_truthy action KEY_CONTEXT_AUTH
    then context_get action KEY_CONTEXT_AUTH
    else init action ≫= init_auth.
Proof.
  unfold requestOptions, inputOptions, assign_request, context_get.
  destruct action as [inp [[mi hi bi wi ai]|] ctx];
    cbn [input init context init_method init_headers init_body
         init_withCredentials init_auth];
    destruct (context_truthy _ KEY_CONTEXT_AUTH);
    repeat case_match; simpl; try done; by destruct ai.
Qed.

(** [Headers_check] throws at the first pair that the class refuses. *)
Lemma Headers_check_Normal refuses (entries : list (string * string)) :
  Headers_check refuses entries = Normal ()
  ↔ ∀ name value, (name, value) ∈ entries → refuses name value = None.
Proof.
  induction entries as [|[n v] entries IH]; simpl.
  - split; [|done]. intros _ name value Hin. inversion Hin.
  - destruct (refuses n v) as [error|] eqn:Hr.
    + split; [done|]. intros Hall. rewrite (Hall n v) in Hr; [done|by left].
    + rewrite IH. split.
      * intros Hall name value Hin.
        apply elem_of_cons in Hin as [[= -> ->]|Hin]; auto.
      * intros Hall name value Hin. apply Hall. by right.
Qed.

Lemma Headers_check_Throw refuses (entries : list (string * string)) e :
  Headers_check refuses entries = Throw e
  ↔ ∃ before name value after,
      entries = before ++ (name, value) :: after
      ∧ (∀ n v, (n, v) ∈ before → refuses n v = None)
      ∧ refuses name value = Some e.
Proof.
  induction entries as [|[n v] entries IH]; simpl.
  - split; [done|]. intros (before & ? & ? & ? & Heq & _). by destruct before.
  - destruct (refuses n v) as [error|] eqn:Hr.
    + split.
      * intros [= <-]. exists [], n, v, entries. split_and!; [done| |done].
        intros ? ? Hin. inversion Hin.
      * intros ([|[n' v'] before] & name & value & after & Heq & Hbefore & Hname).
        -- injection Heq as -> -> _. congruence.
        -- injection Heq as <- <- _. rewrite (Hbefore n v) in Hr; [done|by left].
    + rewrite IH. split.
      * intros (before & name & value & after & -> & Hbefore & Hname).
        exists ((n, v) :: before), name, value, after. split_and!; [done| |done].
        intros n' v' Hin. apply elem_of_cons in Hin as [[= -> ->]|Hin]; auto.
      * intros ([|[n' v'] before] & name & value & after & Heq & Hbefore & Hname).
        -- injection Heq as -> -> _. congruence.
        -- injection Heq as <- <- ->. exists before, name, value, after.
           split_and!; [done| |done]. intros ? ? Hin. apply Hbefore. by right.
Qed.

(** The [Headers] calls of [run]: the pairs of [init] first, then the
    user agent of the actor when the headers name none. *)
Lemma headersChecks_cases self action :
  headersChecks self action =
    match Headers_check (Headers_refuses self) (initPairs action) with
    | Throw e => Throw e
    | Normal _ =>
        if Headers_has (initialHeaders action) "user-agent"
        then Normal ()
        else match Headers_refuses self "user-agent" (userAgent self) with
             | Some e => Throw e
             | None => Normal ()
             end
    end.
Proof.
  unfold headersChecks, initPairs. rewrite inputOptions_headers. simpl.
  destruct (init action) as [i|]; simpl.
  - destruct (Headers_check _ _) as [[]|e]; simpl; [|done].
    destruct (Headers_has _ _); simpl; [done|]. by destruct (Headers_refuses _ _ _).
  - destruct (Headers_has _ _); simpl; [done|]. by destruct (Headers_refuses _ _ _).
Qed.

(** What [headersChecks] throws is the error of a header of [init], or of
    the user agent of the actor. *)
Lemma headersChecks_Throw self action e :
  headersChecks self action = Throw e →
  ∃ name value,
    Headers_refuses self name value = Some e
    ∧ ((name, value) ∈ initPairs action
       ∨ (name, value) = ("user-agent", userAgent self)).
Proof.
  rewrite headersChecks_cases.
  destruct (Headers_check _ (initPairs action)) as [[]|e'] eqn:Hinit.
  - destruct (Headers_has _ _); [done|].
    destruct (Headers_refuses self "user-agent" _) as [e'|] eqn:Hua; [|done].
    intros [= ->]. exists "user-agent", (userAgent self). split; [done|by right].
  - intros [= ->].
    apply Headers_check_Throw in Hinit as (before & name & value & after & Heq & _ & Hname).
    exists name, value. split; [done|]. left.
    rewrite Heq. apply elem_of_app. right. by left.
Qed.

(** A [TypeError] of the [Headers] class rejects [run] before any request. *)
Lemma run_headers_throw self action (calls : list Call) e :
  headersChecks self action = Throw e →
  run KEY_CONTEXT_INCLUDE_CREDENTIALS KEY_CONTEXT_AUTH self action calls = (Throw e, calls).
Proof. intros Hc. unfold run. rewrite Hc. done. Qed.

(** Otherwise [run] makes one request, with the options of [requestOptions]. *)
Lemma run_requests self action (calls : list Call) :
  headersChecks self action = Normal () →
  ∃ result,
    run KEY_CONTEXT_INCLUDE_CREDENTIALS KEY_CONTEXT_AUTH self action calls
    = (result, calls ++ [CallCreateRequest (requestOptions' self action)]).
Proof.
  intros Hc. unfold run. rewrite Hc. traced_steps.
  destruct (createRequest self _) as [error|error|httpResponse [error|]]; eauto.
Qed.

Lemma run_resolves self action (calls calls' : list Call) out :
  run KEY_CONTEXT_INCLUDE_CREDENTIALS KEY_CONTEXT_AUTH self action calls = (Normal out, calls') →
  ∃ httpResponse,
    createRequest self (requestOptions' self action) = EmitResponse httpResponse None
    ∧ out = responseOutput (requestOptions' self action) httpResponse.
Proof.
  unfold run. destruct (headersChecks self action) as [[]|e]; traced_steps;
    [|discriminate].
  destruct (createRequest self _) as [error|error|httpResponse [error|]];
    try discriminate.
  intros [= <- _]. eauto.
Qed.

Lemma user_password_truthy user password :
  truthy (CtxString (user +:+ ":" +:+ password)) = true.
Proof. by destruct user. Qed.
End HttpFacts.

(** ** The claims on [ActorHttpNative.run] *)
Section HttpClaims.
Import Js HttpNative HttpSpec.
Variables KEY_CONTEXT_INCLUDE_CREDENTIALS KEY_CONTEXT_AUTH : string.

(** C8.  Either a call of the [Headers] class throws, for a header of
    [init] or for the user agent of the actor, and [run] rejects with that
    [TypeError] without a request; or [run] makes one request.  The options
    of that request always have a [user-agent] header: the headers are those
    of [init] when there is an [init], otherwise those of a [Request] input,
    and the user agent of the actor is appended exactly when these name
    none.  [withCredentials] is [true] when the context holds a truthy
    include-credentials flag; when it does not, [withCredentials] is what
    [init] carries, so that it is set exactly when the flag is set for an
    [init] that carries none.  A truthy auth value of the context, as any
    [user:password] string, is copied to [auth]; when the context has none,
    [auth] is what [init] carries. *)
Theorem request_honours_user_agent_credentials_auth
    (self : ActorHttpNative) (action : IActionHttp) (calls : list Call) :
  (∃ e name value,
     run KEY_CONTEXT_INCLUDE_CREDENTIALS KEY_CONTEXT_AUTH self action calls
     = (Throw e, calls)
     ∧ Headers_refuses self name value = Some e
     ∧ ((name, value) ∈ initPairs action
        ∨ (name, value) = ("user-agent", userAgent self)))
  ∨ ∃ result options,
      run KEY_CONTEXT_INCLUDE_CREDENTIALS KEY_CONTEXT_AUTH self action calls
      = (result, calls ++ [CallCreateRequest options])
      ∧ (∃ h, opt_headers options = Some h
              ∧ Headers_has h "user-agent" = true
              ∧ (∀ i, init action = Some i →
                   let given := map (fun entry => (lower (fst entry), snd entry))
                                    (default [] (init_headers i)) in
                   h = if Headers_has given "user-agent" then given
                       else given ++ [("user-agent", userAgent self)])
              ∧ (∀ r, init action = None → input action = InputRequest r →
                   let given := default [] (headers r) in
                   h = if Headers_has given "user-agent" then given
                       else given ++ [("user-agent", userAgent self)])
              ∧ (∀ s, init action = None → input action = InputString s →
                   h = [("user-agent", userAgent self)]))
      ∧ ((∃ v, context_get action KEY_CONTEXT_INCLUDE_CREDENTIALS = Some v
               ∧ truthy v = true) →
           opt_withCredentials options = Some (CtxBoolean true))
      ∧ ((∀ v, context_get action KEY_CONTEXT_INCLUDE_CREDENTIALS = Some v →
               truthy v = false) →
           opt_withCredentials options = init action ≫= init_withCredentials)
      ∧ (init action ≫= init_withCredentials = None →
           (opt_withCredentials options = Some (CtxBoolean true)
            ↔ ∃ v, context_get action KEY_CONTEXT_INCLUDE_CREDENTIALS = Some v
                   ∧ truthy v = true))
      ∧ (∀ v, context_get action KEY_CONTEXT_AUTH = Some v → truthy v = true →
              opt_auth options = Some v)
      ∧ (∀ user password,
           context_get action KEY_CONTEXT_AUTH = Some (CtxString (user +:+ ":" +:+ password)) →
           opt_auth options = Some (CtxString (user +:+ ":" +:+ password)))
      ∧ ((∀ v, context_get action KEY_CONTEXT_AUTH = Some v → truthy v = false) →
           opt_auth options = init action ≫= init_auth).
Proof.
  destruct (headersChecks self action) as [[]|e] eqn:Hchecks.
  2:{ left. destruct (headersChecks_Throw _ _ _ Hchecks) as (name & value & Hr & Hin).
      exists e, name, value. split_and!; [by apply run_headers_throw|done|done]. }
  right.
  destruct (run_requests KEY_CONTEXT_INCLUDE_CREDENTIALS KEY_CONTEXT_AUTH self action calls
              Hchecks) as [result Hrun].
  exists result, (requestOptions KEY_CONTEXT_INCLUDE_CREDENTIALS KEY_CONTEXT_AUTH self action).
  split; [exact Hrun|]. clear Hrun Hchecks.
  rewrite requestOptions_headers, requestOptions_withCredentials, requestOptions_auth.
  assert (Hcred : ∀ key,
            (∀ v, context_get action key = Some v → truthy v = false) →
            context_truthy action key = false).
  { intros key Hall. destruct (context_truthy action key) eqn:Ht; [|done].
    apply context_truthy_get in Ht as (v & Hv & Htv).
    rewrite (Hall v Hv) in Htv. done. }
  assert (Hauth : ∀ v, context_get action KEY_CONTEXT_AUTH = Some v → truthy v = true →
            (if context_truthy action KEY_CONTEXT_AUTH
             then context_get action KEY_CONTEXT_AUTH
             else init action ≫= init_auth) = Some v).
  { intros v Hv Ht.
    rewrite (proj2 (context_truthy_get action KEY_CONTEXT_AUTH)) by eauto. done. }
  split_and!.
  - eexists. split; [reflexivity|]. split.
    { destruct (Headers_has (initialHeaders action) "user-agent") eqn:Hua; [done|].
      apply Headers_has_append_same. }
    unfold initialHeaders, Headers_append. split_and!.
    + intros i ->. cbv zeta. by rewrite new_Headers_entries.
    + by intros r -> ->.
    + by intros s -> ->.
  - intros Hv. by rewrite (proj2 (context_truthy_get action _) Hv).
  - intros Hall. by rewrite (Hcred _ Hall).
  - intros Hnone. rewrite Hnone, <- context_truthy_get.
    destruct (context_truthy action KEY_CONTEXT_INCLUDE_CREDENTIALS); split; done.
  - exact Hauth.
  - intros user password Hv. apply Hauth; [done|]. apply user_password_truthy.
  - intros Hall. by rewrite (Hcred _ Hall).
Qed.
End HttpClaims.

Section HttpResponseClaims.
Import Js HttpNative HttpSpec.
Variables KEY_CONTEXT_INCLUDE_CREDENTIALS KEY_CONTEXT_AUTH : string.

(** C10.  Every output that [run] resolves with is built from a response
    of the requester: its [ok] is true exactly when the status code is
    below 300, and its [url] is the value of the [content-location]
    header when the response has that header and the response URL when it
    has not. *)
Theorem response_ok_and_url (self : ActorHttpNative) (action : IActionHttp)
    (calls calls' : list Call) (out : IActorHttpOutput) :
  run KEY_CONTEXT_INCLUDE_CREDENTIALS KEY_CONTEXT_AUTH self action calls
  = (Normal out, calls') →
  ∃ httpResponse,
    createRequest self
      (requestOptions KEY_CONTEXT_INCLUDE_CREDENTIALS KEY_CONTEXT_AUTH self action)
      = EmitResponse httpResponse None
    ∧ status out = statusCode httpResponse
    ∧ (ok out = true ↔ statusCode httpResponse < 300)
    ∧ (Headers_has (response_headers httpResponse) "content-location" = true →
         ∃ location,
           Headers_get (response_headers httpResponse) "content-location" = Some location
           ∧ out_url out = Some location)
    ∧ (Headers_has (response_headers httpResponse) "content-location" = false →
         out_url out = Some (responseUrl httpResponse)).
Proof.
  intros Hrun.
  apply run_resolves in Hrun as (httpResponse & Hreq & ->).
  exists httpResponse. cbn [status ok out_url responseOutput].
  split_and!; try done.
  - apply Z.ltb_lt.
  - intros Hhas. rewrite Hhas.
    apply Headers_has_get in Hhas as [location Hloc]. eauto.
  - by intros ->.
Qed.
End HttpResponseClaims.

Section HttpExamples.
Import Js HttpNative HttpSpec Examples.

Example request_example :
  requestOptions key_credentials key_auth native_actor action_with_context
  = {| opt_url := Some (InputString "http://ex/data");
       opt_method := Some "GET";
       opt_headers := Some [("accept", "text/turtle");
                            ("user-agent", "Comunica/actor-http-native")];
       opt_body := None;
       opt_withCredentials := Some (CtxBoolean true);
       opt_auth := Some (CtxString "user:password") |}.
Proof. vm_compute. reflexivity. Qed.

(** A user agent of the [Request] is kept when there is no [init]; its
    method, [HEAD], is not. *)
Example request_keeps_user_agent :
  requestOptions key_credentials key_auth native_actor action_with_request
  = {| opt_url := Some (InputString "http://ex/data");
       opt_method := Some "GET";
       opt_headers := Some [("user-agent", "custom/1.0")];
       opt_body := None;
       opt_withCredentials := None;
       opt_auth := None |}.
Proof. vm_compute. reflexivity. Qed.

(** With an [init], the headers are those of the [init] alone. *)
Example request_init_headers_take_over :
  opt_headers (requestOptions key_credentials key_auth native_actor
                 action_with_request_and_init)
  = Some [("user-agent", "Comunica/actor-http-native")].
Proof. vm_compute. reflexivity. Qed.

(** A header without a name is refused: no request is made. *)
Example request_illegal_header :
  run key_credentials key_auth native_actor action_with_illegal_header []
  = (Throw (TypeErr "Invalid header name"), []).
Proof. vm_compute. reflexivity. Qed.

(** C8, as the claim has it, fails twice.  An [init] that carries
    [withCredentials] sets it on the request although the context has no
    include-credentials flag, and the [auth] of such an [init] is on the
    request without any auth value in the context.  And a [Request] that
    names its own user agent, given with an [init] without headers, is sent
    with the user agent of the actor: the default is appended although the
    caller supplied one. *)
Lemma request_claim_counterexample :
  (context_get action_with_init_credentials key_credentials = None
   ∧ context_get action_with_init_credentials key_auth = None
   ∧ ∃ result options,
       run key_credentials key_auth native_actor action_with_init_credentials []
       = (result, [CallCreateRequest options])
       ∧ opt_withCredentials options = Some (CtxBoolean true)
       ∧ opt_auth options = Some (CtxString "user:password"))
  ∧ (input action_with_request_and_init = InputRequest request_with_user_agent
     ∧ Headers_get (default [] (headers request_with_user_agent)) "user-agent"
       = Some "custom/1.0"
     ∧ ∃ result options,
         run key_credentials key_auth native_actor action_with_request_and_init []
         = (result, [CallCreateRequest options])
         ∧ opt_headers options = Some [("user-agent", "Comunica/actor-http-native")]).
Proof.
  split; (split_and!; [reflexivity..|]);
    eexists; eexists; (split; [vm_compute; reflexivity|]); split_and?; reflexivity.
Qed.

Lemma request_honours_witness :
  ∃ result options,
    run key_credentials key_auth native_actor action_with_context []
    = (result, [CallCreateRequest options])
    ∧ opt_withCredentials options = Some (CtxBoolean true)
    ∧ opt_auth options = Some (CtxString "user:password").
Proof.
  destruct (request_honours_user_agent_credentials_auth key_credentials key_auth
              native_actor action_with_context [])
    as [(e & name & value & Hrun & _)
       |(result & options & Hrun & _ & Hcred & _ & _ & _ & Hauth & _)].
  - vm_compute in Hrun. discriminate Hrun.
  - exists result, options. split; [exact Hrun|]. split.
    + apply Hcred. exists (CtxBoolean true). split; reflexivity.
    + apply (Hauth "user" "password"). reflexivity.
Defined.

Lemma response_ok_and_url_witness :
  ∃ out calls',
    run key_credentials key_auth native_actor action_with_context [] = (Normal out, calls')
    ∧ ok out = true
    ∧ out_url out = Some "http://ex/data.ttl".
Proof.
  set (options := requestOptions key_credentials key_auth native_actor action_with_context).
  assert (Hrun : run key_credentials key_auth native_actor action_with_context []
                 = (Normal (responseOutput options response_203),
                    [CallCreateRequest options])).
  { vm_compute. reflexivity. }
  exists (responseOutput options response_203), [CallCreateRequest options].
  split; [exact Hrun|].
  destruct (response_ok_and_url key_credentials key_auth native_actor
              action_with_context [] _ _ Hrun)
    as (httpResponse & Hreq & _ & Hok & Hloc & _).
  injection Hreq as <-.
  split.
  - apply Hok. reflexivity.
  - destruct (Hloc eq_refl) as (location & Hget & Hurl).
    rewrite Hurl, <- Hget. reflexivity.
Defined.
End HttpExamples.

(** ** The runner *)
Section RunnerFacts.
Import Js RunnerModel.
Context {IActionInit IActorTest IActorOutputInit : Type}.
Implicit Types (action : IActionInit)
               (replies : list (IActorReply IActionInit IActorTest IActorOutputInit)).

Lemma Promise_all_Normal {A} (l : list A) : Promise_all (map Normal l) = Normal l.
Proof. induction l as [|x l IH]; simpl; [done|]. by rewrite IH. Qed.

Lemma Promise_all_resolved {A B} (f : A → Promise B) (l : list A) (outs : list B) :
  Forall2 (fun x o => f x = Normal o) l outs →
  Promise_all (map f l) = Normal outs.
Proof.
  induction 1 as [|x o l outs Hx _ IH]; simpl; [done|].
  by rewrite Hx, IH.
Qed.

Lemma Promise_all_rejected {A B} (f : A → Promise B) (l : list A) :
  Exists (fun x => ∃ e, f x = Throw e) l →
  ∃ e, Promise_all (map f l) = Throw e.
Proof.
  induction 1 as [x l [e He]|x l _ [e IH]]; simpl.
  - rewrite He. eauto.
  - rewrite IH. destruct (f x); simpl; eauto.
Qed.

Lemma array_map_call_runObservable action replies (calls : list (Call _ _ _)) :
  array_map (fun reply => call_runObservable (actor reply) action) replies calls
  = (Normal (map (fun reply => runObservable (actor reply) action) replies),
     calls ++ map (fun reply => CallRunObservable (actor reply) action) replies).
Proof.
  revert calls. induction replies as [|reply replies IH]; intros calls.
  - simpl. by rewrite (right_id_L [] (++)).
  - cbn [array_map map]. unfold mbind at 1, Traced_bind.
    unfold call_runObservable at 1, call.
    unfold mbind at 1, Traced_bind. rewrite IH.
    by rewrite <- (assoc_L (++)).
Qed.
End RunnerFacts.

Section RunnerClaims.
Import Js RunnerModel.
Context {IActionInit IActorTest IActorOutputInit : Type}.

(** C9.  [Runner.run] calls [runObservable] once on the actor of every
    reply that [publish] returned, in their order and whatever the test
    reply is (it is never looked at: no winner is selected, no failed test
    filters an actor out), and resolves with the list of all the outputs;
    it rejects when one of the runs does. *)
Theorem run_invokes_every_replying_actor
    (self : Runner IActionInit IActorTest IActorOutputInit)
    (action : IActionInit) (calls : list (Call IActionInit IActorTest IActorOutputInit)) :
  let replies := publish (busInit self) action in
  ∃ result,
    run self action calls
    = (result, calls ++ map (fun reply => CallRunObservable (actor reply) action) replies)
    ∧ (∀ outputs,
         Forall2 (fun reply output => runObservable (actor reply) action = Normal output)
                 replies outputs →
         result = Normal outputs)
    ∧ (Exists (fun reply => ∃ e, runObservable (actor reply) action = Throw e) replies →
         ∃ e, result = Throw e).
Proof.
  intros replies. unfold run. fold replies.
  rewrite Promise_all_Normal. unfold await.
  unfold mbind at 1, Traced_bind. unfold mbind at 1, Traced_bind.
  rewrite array_map_call_runObservable.
  eexists. split; [reflexivity|]. split.
  - intros outputs Hall. by apply Promise_all_resolved.
  - apply Promise_all_rejected.
Qed.
End RunnerClaims.

Section RunnerExamples.
Import Js RunnerModel Examples.

Lemma run_invokes_every_replying_actor_witness :
  run two_actor_runner () []
  = (Normal ["first ran"; "second ran"],
     [CallRunObservable failing_test_actor (); CallRunObservable passing_test_actor ()]).
Proof.
  destruct (run_invokes_every_replying_actor two_actor_runner () [])
    as (result & Hrun & Hall & _).
  rewrite Hrun. f_equal. apply Hall.
  repeat constructor.
Defined.
End RunnerExamples.

(** * Further properties of the code *)

(** ** The variables of a join *)
Section JoinVariablesFacts.
Import Js Rdf RdfJoin JoinVariables.

Lemma includes_elem_of array el : includes array el = true ↔ el ∈ array.
Proof.
  unfold includes. rewrite existsb_exists. split.
  - intros (x & Hin & Heq). apply String.eqb_eq in Heq as ->.
    by apply list_elem_of_In.
  - intros Hin. exists el. split; [by apply list_elem_of_In|apply String.eqb_refl].
Qed.

Lemma fold_filter_includes (rest : list (list string)) (first : list string) v :
  v ∈ fold_left (fun baseArray array => List.filter (fun el => includes array el) baseArray)
                rest first
  ↔ v ∈ first ∧ ∀ array, array ∈ rest → v ∈ array.
Proof.
  revert first. induction rest as [|array rest IH]; intros first; simpl.
  - split; [|tauto]. intros Hv. split; [done|]. intros array Hin. inversion Hin.
  - rewrite IH. rewrite list_elem_of_In, filter_In, <- list_elem_of_In, includes_elem_of.
    split.
    + intros [[Hf Ha] Hrest]. split; [done|]. intros array' Hin.
      apply elem_of_cons in Hin as [->|Hin]; auto.
    + intros [Hf Hall]. split_and!; [done|..].
      * apply Hall. by left.
      * intros array' Hin. apply Hall. by right.
Qed.

Lemma fold_filter_sublist (rest : list (list string)) (first : list string) :
  sublist (fold_left (fun baseArray array => List.filter (fun el => includes array el) baseArray)
                     rest first) first.
Proof.
  revert first. induction rest as [|array rest IH]; intros first; simpl; [done|].
  etrans; [apply IH|]. clear IH.
  induction first as [|x first IHf]; simpl; [done|].
  destruct (includes array x); by constructor.
Qed.

Lemma fold_app_elem_of (ls : list (list string)) (acc : list string) v :
  v ∈ fold_left (fun acc it => acc ++ it) ls acc ↔ v ∈ acc ∨ ∃ l, l ∈ ls ∧ v ∈ l.
Proof.
  revert acc. induction ls as [|l ls IH]; intros acc; simpl.
  - split; [auto|]. intros [?|(l & Hin & _)]; [done|inversion Hin].
  - rewrite IH, elem_of_app. split.
    + intros [[?|?]|(l' & Hin & Hv)]; [by left|right..].
      * exists l. split; [by left|done].
      * exists l'. split; [by right|done].
    + intros [?|(l' & Hin & Hv)]; [by left; left|].
      apply elem_of_cons in Hin as [->|Hin]; [by left; right|].
      right. eauto.
Qed.

Lemma spread_Set_fold (array set : list string) :
  NoDup set →
  NoDup (fold_left (fun set el => if includes set el then set else set ++ [el]) array set)
  ∧ ∀ v, v ∈ fold_left (fun set el => if includes set el then set else set ++ [el]) array set
         ↔ v ∈ set ∨ v ∈ array.
Proof.
  revert set. induction array as [|el array IH]; intros set Hnd; simpl.
  - split; [done|]. intros v. split; [auto|]. intros [?|Hin]; [done|inversion Hin].
  - destruct (includes set el) eqn:Hinc.
    + apply includes_elem_of in Hinc.
      destruct (IH set Hnd) as [Hnd' Hmem]. split; [done|].
      intros v. rewrite Hmem, elem_of_cons. split; [tauto|].
      intros [?|[->|?]]; auto.
    + assert (el ∉ set) as Hnin.
      { intros Hin. apply includes_elem_of in Hin. congruence. }
      destruct (IH (set ++ [el])) as [Hnd' Hmem].
      { apply NoDup_app. split_and!; [done| |apply NoDup_singleton].
        intros x Hx Hx'. apply list_elem_of_singleton in Hx' as ->. done. }
      split; [done|]. intros v.
      rewrite Hmem, elem_of_app, list_elem_of_singleton, elem_of_cons. tauto.
Qed.

(** The successive filters of the loop keep, of the first array, the
    elements that every other array includes: each occurrence of such an
    element stays, at its place. *)
Lemma fold_filter_forallb (rest : list (list string)) (first : list string) :
  fold_left (fun baseArray array => List.filter (fun el => includes array el) baseArray)
            rest first
  = List.filter (fun el => forallb (fun array => includes array el) rest) first.
Proof.
  revert first. induction rest as [|array rest IH]; intros first; simpl.
  - induction first as [|x first IHf]; simpl; congruence.
  - rewrite IH. induction first as [|x first IHf]; simpl; [done|].
    destruct (includes array x); simpl; [|exact IHf].
    destruct (forallb _ rest); simpl; by rewrite IHf.
Qed.

Lemma forallb_variables (rest : list IActorQueryOperationOutputBindings) (el : string) :
  forallb (fun array => includes array el) (map variables rest)
  = forallb (fun entry => includes (variables entry) el) rest.
Proof. induction rest as [|entry rest IH]; simpl; congruence. Qed.

(** X1.  [overlappingVariables] returns [undefined] for an action without
    entries.  Otherwise it returns the variables of the first entry that
    occur in every entry, in the order and with the repetitions they have
    in the first entry: the result is the list of variables of the first
    entry from which the occurrences of the variables that some other entry
    lacks are removed, and nothing else. *)
Theorem overlappingVariables_spec (action : IActionRdfJoin) :
  (entries action = [] → overlappingVariables action = None)
  ∧ (∀ first rest, entries action = first :: rest →
       ∃ overlap,
         overlappingVariables action = Some overlap
         ∧ overlap
           = List.filter
               (fun el => forallb (fun entry => includes (variables entry) el) rest)
               (variables first)
         ∧ sublist overlap (variables first)
         ∧ (∀ v, v ∈ overlap ↔ ∀ entry, entry ∈ entries action → v ∈ variables entry)
         ∧ (∀ v, (∀ entry, entry ∈ entries action → v ∈ variables entry) →
                 List.count_occ string_dec overlap v
                 = List.count_occ string_dec (variables first) v)).
Proof.
  unfold overlappingVariables. split.
  - by intros ->.
  - intros first rest ->. cbn [map]. eexists. split; [reflexivity|]. split_and!.
    + rewrite fold_filter_forallb.
      induction (variables first) as [|x l IHl]; simpl; [done|].
      by rewrite forallb_variables, IHl.
    + apply fold_filter_sublist.
    + intros v. rewrite fold_filter_includes. split.
      * intros [Hf Hrest] entry Hin.
        apply elem_of_cons in Hin as [->|Hin]; [done|].
        apply Hrest. by apply list_elem_of_fmap_2.
      * intros Hall. split; [apply Hall; by left|].
        intros array Hin. apply list_elem_of_fmap in Hin as (entry & -> & Hin).
        apply Hall. by right.
    + intros v Hall. rewrite fold_filter_forallb.
      assert (forallb (fun array => includes array v) (map variables rest) = true) as Hv.
      { apply forallb_forall. intros array Hin. apply includes_elem_of.
        apply in_map_iff in Hin as (entry & <- & Hin). apply Hall. right.
        by apply list_elem_of_In. }
      induction (variables first) as [|x l IHl]; simpl; [done|].
      destruct (string_dec x v) as [->|Hne].
      * rewrite Hv. simpl. destruct (string_dec v v); [|done]. by rewrite IHl.
      * destruct (forallb (fun array => includes array x) (map variables rest)); simpl;
          [|exact IHl].
        destruct (string_dec x v); [done|exact IHl].
Qed.

(** X2.  [joinVariables] has no variable twice, and holds exactly the
    variables that occur in some entry. *)
Theorem joinVariables_spec (action : IActionRdfJoin) :
  NoDup (joinVariables action)
  ∧ ∀ v, v ∈ joinVariables action
         ↔ ∃ entry, entry ∈ entries action ∧ v ∈ variables entry.
Proof.
  unfold joinVariables, spread_Set.
  destruct (spread_Set_fold
              (fold_left (fun acc it => acc ++ it) (map variables (entries action)) [])
              [] (NoDup_nil_2)) as [Hnd Hmem].
  split; [done|]. intros v. rewrite Hmem, fold_app_elem_of. split.
  - intros [Hin|[Hin|(l & Hl & Hv)]]; [inversion Hin|inversion Hin|].
    apply list_elem_of_fmap in Hl as (entry & -> & Hin). eauto.
  - intros (entry & Hin & Hv). right. right. exists (variables entry).
    split; [by apply list_elem_of_fmap_2|done].
Qed.
End JoinVariablesFacts.

Section JoinVariablesOrder.
Import Js Rdf RdfJoin JoinVariables Examples.

Lemma spread_Set_NoDup_fold (array set : list string) :
  NoDup (set ++ array) →
  fold_left (fun set el => if includes set el then set else set ++ [el]) array set
  = set ++ array.
Proof.
  revert set. induction array as [|el array IH]; intros set Hnd; simpl.
  - by rewrite (right_id_L [] (++)).
  - assert (includes set el = false) as ->.
    { destruct (includes set el) eqn:Hinc; [|done].
      apply includes_elem_of in Hinc.
      apply NoDup_app in Hnd as (_ & Hdisj & _).
      exfalso. apply (Hdisj el Hinc). by left. }
    rewrite IH; rewrite <- (assoc_L (++)); done.
Qed.

(** X3.  Every overlapping variable is a join variable.  For a single
    entry whose variables are distinct, both functions return the
    variables of that entry as they are. *)
Theorem overlapping_within_joinVariables (action : IActionRdfJoin) :
  (∀ overlap v, overlappingVariables action = Some overlap → v ∈ overlap →
                v ∈ joinVariables action)
  ∧ (∀ entry, entries action = [entry] → NoDup (variables entry) →
       joinVariables action = variables entry
       ∧ overlappingVariables action = Some (variables entry)).
Proof.
  split.
  - intros overlap v Hov Hv.
    unfold joinVariables, spread_Set, overlappingVariables in *.
    apply (proj2 (spread_Set_fold _ [] NoDup_nil_2)). right.
    apply fold_app_elem_of. right.
    destruct (map variables (entries action)) as [|first rest]; [done|].
    injection Hov as <-. apply fold_filter_includes in Hv as [Hv _].
    exists first. split; [by left|done].
  - intros entry Hes Hnd. unfold joinVariables, overlappingVariables, spread_Set.
    rewrite Hes. cbn [map fold_left]. split; [|done].
    by rewrite spread_Set_NoDup_fold.
Qed.

(** A variable that the first entry lists twice is returned twice. *)
Example overlappingVariables_repetitions :
  overlappingVariables
    {| entries := [MoreExamples.entry_over ["?a"; "?a"; "?b"; "?c"];
                   MoreExamples.entry_over ["?c"; "?a"]] |}
  = Some ["?a"; "?a"; "?c"].
Proof. reflexivity. Qed.

Lemma overlapping_within_joinVariables_witness :
  joinVariables action_1 = ["?x"] ∧ overlappingVariables action_1 = Some ["?x"].
Proof.
  apply (proj2 (overlapping_within_joinVariables action_1)
           (entry_of 2 [bindings_x1; bindings_x3]) eq_refl).
  apply NoDup_singleton.
Defined.
End JoinVariablesOrder.

(** ** Joining several bindings *)
Section JoinListFacts.
Import Js Rdf RdfJoin Spec JoinSpec Examples.

Lemma compatible_refl (a : Bindings) : compatible a a.
Proof. intros k x y Hx Hy. apply equals_eq. congruence. Qed.

Lemma compatible_union_of (acc val : Bindings) (done_ : list Bindings) :
  union_of acc done_ →
  (compatible acc val ↔ ∀ b, b ∈ done_ → compatible b val).
Proof.
  intros Hu. split.
  - intros Hc b Hb k x y Hx Hy. apply (Hc k x y); [|done].
    apply Hu. eauto.
  - intros Hall k x y Hx Hy. apply Hu in Hx as (b & Hb & Hx).
    by apply (Hall b Hb k).
Qed.

Lemma conflicting_union_of (acc val : Bindings) (done_ : list Bindings) :
  union_of acc done_ → conflicting acc val → ∃ b, b ∈ done_ ∧ conflicting b val.
Proof.
  intros Hu (k & x & y & Hx & Hy & Hne).
  apply Hu in Hx as (b & Hb & Hx). exists b. split; [done|]. by exists k, x, y.
Qed.

Lemma union_of_snoc (acc val : Bindings) (done_ : list Bindings) :
  union_of acc done_ → compatible acc val → union_of (acc ∪ val) (done_ ++ [val]).
Proof.
  intros Hu Hc k v. rewrite (compatible_is_union acc val Hc k v). split.
  - intros [Ha|Hv].
    + apply Hu in Ha as (b & Hb & Ha). exists b. split; [|done].
      apply elem_of_app. by left.
    + exists val. split; [|done]. apply elem_of_app. right. by apply list_elem_of_singleton.
  - intros (b & Hb & Hk). apply elem_of_app in Hb as [Hb|Hb].
    + left. apply Hu. eauto.
    + apply list_elem_of_singleton in Hb as ->. by right.
Qed.

Lemma foldl_merge_throw (xs : list Bindings) e :
  foldl (fun acc val => a ← acc; mergeWith join_merger a val) (Throw e) xs = Throw e.
Proof. induction xs as [|x xs IH]; simpl; [done|]. exact IH. Qed.

(** The left fold of [join], from bindings [acc] that are the union of the
    pairwise compatible [done_]. *)
Lemma foldl_merge_cases (xs done_ : list Bindings) (acc : Bindings) :
  union_of acc done_ → pairwise_compatible done_ →
  (pairwise_compatible (done_ ++ xs)
   ∧ ∃ r, foldl (fun acc val => a ← acc; mergeWith join_merger a val) (Normal acc) xs
          = Normal r
          ∧ union_of r (done_ ++ xs))
  ∨ (some_conflict (done_ ++ xs)
     ∧ foldl (fun acc val => a ← acc; mergeWith join_merger a val) (Normal acc) xs
       = Throw (Err "Join failure")).
Proof.
  revert done_ acc. induction xs as [|x xs IH]; intros done_ acc Hu Hp.
  - left. rewrite (right_id_L [] (++)). split; [done|]. by exists acc.
  - cbn [foldl]. change (Normal acc ≫= _) with (mergeWith join_merger acc x).
    destruct (mergeWith_join_merger acc x) as [[Hc ->]|[Hx ->]].
    + assert (pairwise_compatible (done_ ++ [x])) as Hp'.
      { pose proof (proj1 (compatible_union_of _ _ _ Hu) Hc) as Hall.
        intros a b Ha Hb.
        apply elem_of_app in Ha as [Ha|Ha]; apply elem_of_app in Hb as [Hb|Hb];
          rewrite ?list_elem_of_singleton in *; subst.
        - by apply Hp.
        - by apply Hall.
        - apply compatible_sym. by apply Hall.
        - apply compatible_refl. }
      specialize (IH (done_ ++ [x]) (acc ∪ x) (union_of_snoc _ _ _ Hu Hc) Hp').
      by rewrite <- (assoc_L (++)) in IH.
    + right. rewrite foldl_merge_throw. split; [|done].
      destruct (conflicting_union_of _ _ _ Hu Hx) as (b & Hb & Hbx).
      exists b, x. split_and!; [|..|done].
      * apply elem_of_app. by left.
      * apply elem_of_app. right. by left.
Qed.

Lemma union_of_singleton (a : Bindings) : union_of a [a].
Proof.
  intros k v. split.
  - intros Hk. exists a. split; [by left|done].
  - intros (b & Hb & Hk). by apply list_elem_of_singleton in Hb as ->.
Qed.

Lemma pairwise_compatible_singleton (a : Bindings) : pairwise_compatible [a].
Proof.
  intros x y Hx Hy. apply list_elem_of_singleton in Hx as ->.
  apply list_elem_of_singleton in Hy as ->. apply compatible_refl.
Qed.

Lemma some_conflict_not_pairwise bs : some_conflict bs → ¬ pairwise_compatible bs.
Proof.
  intros (a & b & Ha & Hb & Hx) Hp.
  apply (conflicting_not_compatible a b Hx). by apply Hp.
Qed.

(** The outcomes of [join] on a list of bindings. *)
Lemma join_cases (bs : list Bindings) :
  (bs ≠ [] ∧ pairwise_compatible bs ∧ ∃ r, join bs = Normal (Some r) ∧ union_of r bs)
  ∨ ((bs = [] ∨ some_conflict bs) ∧ join bs = Normal None).
Proof.
  destruct bs as [|a xs].
  - right. split; [by left|done].
  - unfold join, reduce1.
    destruct (foldl_merge_cases xs [a] a (union_of_singleton a)
                (pairwise_compatible_singleton a)) as [(Hp & r & -> & Hu)|[Hx ->]].
    + left. split_and!; [done|done|]. by exists r.
    + right. split; [by right|done].
Qed.

(** X4.  [join] of any number of bindings is [null] exactly when it is
    given no bindings or two of them conflict.  Otherwise the result
    contains every one of the bindings it was given, and nothing else. *)
Theorem join_list_spec (bs : list Bindings) :
  (join bs = Normal None ↔ bs = [] ∨ some_conflict bs)
  ∧ (∀ r, join bs = Normal (Some r) →
       (∀ b, b ∈ bs → b ⊆ r)
       ∧ ∀ k v, r !! k = Some v → ∃ b, b ∈ bs ∧ b !! k = Some v).
Proof.
  destruct (join_cases bs) as [(Hne & Hp & r & Hr & Hu)|[Hcause Hr]]; rewrite Hr.
  - split.
    + split; [done|]. intros [->|Hx]; [done|].
      by apply some_conflict_not_pairwise in Hx.
    + intros r' [= <-]. split.
      * intros b Hb. apply map_subseteq_spec. intros k v Hk. apply Hu. eauto.
      * intros k v Hk. by apply Hu.
  - split; [done|]. intros r' [=].
Qed.

Lemma union_of_unique (r r' : Bindings) (bs bs' : list Bindings) :
  union_of r bs → union_of r' bs' → (∀ b, b ∈ bs ↔ b ∈ bs') → r = r'.
Proof.
  intros Hu Hu' Hsame. apply map_eq. intros k.
  destruct (r !! k) as [v|] eqn:Hk.
  - symmetry. apply Hu'. apply Hu in Hk as (b & Hb & Hk). exists b.
    split; [by apply Hsame|done].
  - destruct (r' !! k) as [v'|] eqn:Hk'; [|done].
    apply Hu' in Hk' as (b & Hb & Hk'). apply Hsame in Hb.
    assert (r !! k = Some v') as Hk'' by (apply Hu; eauto). congruence.
Qed.

(** X5.  The order of the arguments of [join] does not matter: on two
    lists with the same bindings in another order it returns the same
    result. *)
Theorem join_permutation (bs bs' : list Bindings) :
  bs ≡ₚ bs' → join bs = join bs'.
Proof.
  intros Hperm.
  assert (∀ b, b ∈ bs ↔ b ∈ bs') as Hsame by (intros b; by rewrite Hperm).
  destruct (join_cases bs) as [(Hne & Hp & r & Hr & Hu)|[Hcause Hr]];
    destruct (join_cases bs') as [(Hne' & Hp' & r' & Hr' & Hu')|[Hcause' Hr']];
    rewrite Hr, Hr'; try done.
  - by rewrite (union_of_unique r r' bs bs' Hu Hu' Hsame).
  - exfalso. destruct Hcause' as [->|(a & b & Ha & Hb & Hx)].
    + apply Permutation_nil_r in Hperm. done.
    + apply (conflicting_not_compatible a b Hx). apply Hp; by apply Hsame.
  - exfalso. destruct Hcause as [->|(a & b & Ha & Hb & Hx)].
    + apply Permutation_nil_l in Hperm. done.
    + apply (conflicting_not_compatible a b Hx). apply Hp'; by apply Hsame.
Qed.

Lemma join_permutation_witness :
  join [bindings_x1; bindings_x1_y2; bindings_x1]
  = join [bindings_x1_y2; bindings_x1; bindings_x1].
Proof.
  apply (join_permutation [bindings_x1; bindings_x1_y2; bindings_x1]
           [bindings_x1_y2; bindings_x1; bindings_x1]).
  apply perm_swap.
Defined.

(** X6.  Joining bindings with themselves, or with the empty bindings on
    either side, returns them; joining a single bindings returns it, and
    joining nothing returns [null]. *)
Theorem join_units (a : Bindings) :
  join [a; a] = Normal (Some a)
  ∧ join [a; ∅] = Normal (Some a)
  ∧ join [∅; a] = Normal (Some a)
  ∧ join [a] = Normal (Some a)
  ∧ join [] = Normal None.
Proof.
  split_and!; try done.
  - rewrite (join_pair_compatible a a (compatible_refl a)).
    by rewrite (idemp_L (∪)).
  - rewrite (join_pair_compatible ∅ a).
    + by rewrite (left_id_L ∅ (∪)).
    + intros k x y Hx. by rewrite lookup_empty in Hx.
Qed.
End JoinListFacts.

Section JoinAssociative.
Import Js Rdf RdfJoin Spec JoinSpec Examples.

Lemma lookup_Some_ext (r r' : Bindings) :
  (∀ k v, r !! k = Some v ↔ r' !! k = Some v) → r = r'.
Proof.
  intros H. apply map_eq. intros k.
  destruct (r !! k) as [v|] eqn:Hk.
  - symmetry. by apply H.
  - destruct (r' !! k) as [v'|] eqn:Hk'; [|done].
    apply H in Hk'. congruence.
Qed.

Lemma join_Some_not_conflict bs : pairwise_compatible bs → bs ≠ [] →
  ∃ r, join bs = Normal (Some r) ∧ union_of r bs.
Proof.
  intros Hp Hne.
  destruct (join_cases bs) as [(_ & _ & r & Hr & Hu)|[[->|Hx] _]]; [eauto|done|].
  by apply some_conflict_not_pairwise in Hx.
Qed.

Lemma join_None_conflict bs : some_conflict bs → join bs = Normal None.
Proof.
  intros Hx.
  destruct (join_cases bs) as [(_ & Hp & _)|[_ Hr]]; [|done].
  by apply some_conflict_not_pairwise in Hx.
Qed.

(** X7.  Joining three bindings at once is joining the first with the
    join of the other two: the left fold of [join] groups as well to the
    right, and a conflict anywhere makes the whole join [null]. *)
Theorem join_associative (a b c : Bindings) :
  join [a; b; c] =
    match join [b; c] with
    | Normal (Some bc) => join [a; bc]
    | _ => Normal None
    end.
Proof.
  destruct (join_cases [b; c]) as [(_ & Hp & bc & -> & Hu)|[[Hnil|Hx] ->]];
    [|done|].
  - destruct (join_cases [a; bc]) as [(_ & Hp' & r' & -> & Hu')|[[Hnil|Hx] ->]];
      [|done|].
    + assert (pairwise_compatible [a; b; c]) as Hp3.
      { assert (∀ d, d ∈ [b; c] → compatible a d) as Had.
        { intros d Hd k x y Hx Hy.
          assert (compatible a bc) as Habc by (apply Hp'; [by left|by right; left]).
          apply (Habc k x y); [done|]. apply Hu. eauto. }
        intros x y Hx Hy.
        apply elem_of_cons in Hx as [->|Hx]; apply elem_of_cons in Hy as [->|Hy].
        - apply compatible_refl.
        - by apply Had.
        - apply compatible_sym. by apply Had.
        - by apply Hp. }
      destruct (join_Some_not_conflict [a; b; c] Hp3) as (r & -> & Hu3); [done|].
      do 2 f_equal. apply lookup_Some_ext. intros k v.
      rewrite (Hu3 k v), (Hu' k v). split.
      * intros (d & Hd & Hk). apply elem_of_cons in Hd as [->|Hd].
        -- exists a. split; [by left|done].
        -- exists bc. split; [by right; left|]. apply Hu. eauto.
      * intros (d & Hd & Hk). apply elem_of_cons in Hd as [->|Hd].
        -- exists a. split; [by left|done].
        -- apply list_elem_of_singleton in Hd as ->.
           apply Hu in Hk as (d & Hd & Hk). exists d. split; [by right|done].
    + apply join_None_conflict.
      assert (conflicting a bc) as (k & x & y & Hka & Hkb & Hne).
      { destruct Hx as (x & y & Hx & Hy & Hxy).
        apply elem_of_cons in Hx as [->|Hx]; apply elem_of_cons in Hy as [->|Hy];
          rewrite ?list_elem_of_singleton in *; subst.
        - destruct (conflicting_not_compatible _ _ Hxy (compatible_refl _)).
        - done.
        - by apply conflicting_sym.
        - destruct (conflicting_not_compatible _ _ Hxy (compatible_refl _)). }
      apply Hu in Hkb as (d & Hd & Hkd).
      exists a, d. split_and!; [by left|by right|]. by exists k, x, y.
  - apply join_None_conflict.
    destruct Hx as (x & y & Hx & Hy & Hxy). exists x, y. split_and!; [by right|by right|done].
Qed.
End JoinAssociative.

(** ** More on [iteratorsHaveMetadata], [test] and [run] *)
Section JoinActorFacts.
Import Js Rdf RdfJoin Spec Examples MoreExamples.

Lemma iteratorsHaveMetadata_cases (action : IActionRdfJoin) (key : string) :
  (entries_report key action ∧ iteratorsHaveMetadata action key = Normal true)
  ∨ (¬ entries_report key action ∧ iteratorsHaveMetadata action key = Normal false).
Proof.
  destruct (iteratorsHaveMetadata_total action key) as [H|H].
  - left. split; [|done]. by apply iteratorsHaveMetadata_true_inv.
  - right. split; [|done]. intros Hrep.
    apply iteratorsHaveMetadata_true in Hrep. congruence.
Qed.


Lemma find_first_other_type (before after : list IActorQueryOperationOutputBindings)
    (entry : IActorQueryOperationOutputBindings) :
  Forall (fun e => type e = "bindings") before →
  type entry ≠ "bindings" →
  List.find (fun e => negb (String.eqb (type e) "bindings")) (before ++ entry :: after)
  = Some entry.
Proof.
  intros Hb Hne. induction Hb as [|e before He _ IH]; simpl.
  - destruct (String.eqb_spec (type entry) "bindings"); done.
  - rewrite He. simpl. exact IH.
Qed.

Lemma find_all_bindings (es : list IActorQueryOperationOutputBindings) :
  Forall (fun e => type e = "bindings") es →
  List.find (fun e => negb (String.eqb (type e) "bindings")) es = None.
Proof.
  induction 1 as [|e es He _ IH]; simpl; [done|]. by rewrite He.
Qed.

(** X9.  When the number of entries is within the limit, [test] throws on
    the first entry whose type is not ['bindings'], naming that type, before
    any metadata is read and without calling [getIterations]. *)
Theorem test_rejects_entry_type (self : ActorRdfJoin) (action : IActionRdfJoin)
    (before after : list IActorQueryOperationOutputBindings)
    (entry : IActorQueryOperationOutputBindings) (calls : list Call) :
  entries action = before ++ entry :: after →
  (2 ≤ length (entries action))%nat →
  violatesLimit self (length (entries action)) = false →
  Forall (fun e => type e = "bindings") before →
  type entry ≠ "bindings" →
  test self action calls = (Throw (ErrJoinEntryType (type entry)), calls).
Proof.
  intros Hes Hlen Hlim Hb Hne. unfold test.
  rewrite (proj2 (Nat.leb_gt _ _)) by lia. rewrite Hlim, Hes.
  by rewrite find_first_other_type.
Qed.

Lemma test_rejects_entry_type_witness :
  test actor_without_limit
       {| entries := entries action_1 ++ quads_entry :: entries action_1 |} []
  = (Throw (ErrJoinEntryType "quads"), []).
Proof.
  apply (test_rejects_entry_type actor_without_limit
           {| entries := entries action_1 ++ quads_entry :: entries action_1 |}
           (entries action_1) (entries action_1) quads_entry []).
  - reflexivity.
  - simpl. lia.
  - reflexivity.
  - repeat constructor.
  - discriminate.
Defined.

(** X10.  For an action within the limit whose entries are all bindings:
    when every entry reports [totalItems], [test] calls [getIterations] once
    and answers with its estimate (or rejects as it does); when some entry
    does not, [test] answers with an infinite estimate and does not call the
    subclass at all. *)
Theorem test_estimates_iterations (self : ActorRdfJoin) (action : IActionRdfJoin)
    (calls : list Call) :
  (2 ≤ length (entries action))%nat →
  violatesLimit self (length (entries action)) = false →
  Forall (fun e => type e = "bindings") (entries action) →
  (entries_report "totalItems" action →
     test self action calls
     = (n ← getIterations self action; Normal {| iterations := n |},
        calls ++ [CallGetIterations action]))
  ∧ (¬ entries_report "totalItems" action →
       test self action calls = (Normal {| iterations := PosInf |}, calls)).
Proof.
  intros Hlen Hlim Hb. unfold test.
  rewrite (proj2 (Nat.leb_gt _ _)) by lia. rewrite Hlim, find_all_bindings by done.
  destruct (iteratorsHaveMetadata_cases action "totalItems") as [[Hyes ->]|[Hno ->]].
  - split; [|done]. intros _. unfold call_getIterations.
    traced_steps. by destruct (getIterations self action).
  - split; [done|]. intros _. by traced_steps.
Qed.

Lemma test_estimates_iterations_witness :
  test actor_without_limit action_2_3 []
  = (Normal {| iterations := Fin 6 |}, [CallGetIterations action_2_3]).
Proof.
  apply (proj1 (test_estimates_iterations actor_without_limit action_2_3 []
                  ltac:(simpl; lia) eq_refl ltac:(repeat constructor))).
  repeat constructor; eexists; (split; [reflexivity|]); by eexists.
Defined.

(** X11.  Whatever the action, [test] makes at most one call of the
    subclass, of [getIterations]: it never calls [getOutput]. *)
Theorem test_never_calls_getOutput (self : ActorRdfJoin) (action : IActionRdfJoin)
    (calls : list Call) :
  ∃ r, test self action calls = (r, calls)
       ∨ test self action calls = (r, calls ++ [CallGetIterations action]).
Proof.
  unfold test.
  destruct (length (entries action) <=? 1)%nat; [by eexists; left|].
  destruct (violatesLimit self _); [by eexists; left|].
  destruct (List.find _ _); [by eexists; left|].
  destruct (iteratorsHaveMetadata_total action "totalItems") as [-> | ->].
  - unfold call_getIterations. traced_steps.
    destruct (getIterations self action); eexists; by right.
  - traced_steps. eexists. by left.
Qed.

(** X12.  For an action with at least two entries, [run] calls
    [getOutput] exactly once and nothing else of the subclass.  It rejects
    when that promise rejects; otherwise it resolves with an output of the
    same type, stream and variables.  When some entry does not report
    [totalItems], the promise of [getOutput] is returned as it is. *)
Theorem run_passes_output (self : ActorRdfJoin) (action : IActionRdfJoin)
    (calls : list Call) :
  (2 ≤ length (entries action))%nat →
  ∃ r,
    run self action calls = (r, calls ++ [CallGetOutput action])
    ∧ (¬ entries_report "totalItems" action → r = getOutput self action)
    ∧ (∀ e, getOutput self action = Throw e → r = Throw e)
    ∧ (∀ out, getOutput self action = Normal out →
         ∃ res, r = Normal res
                ∧ type res = type out
                ∧ bindingsStream res = bindingsStream out
                ∧ variables res = variables out).
Proof.
  intros Hlen. unfold run.
  destruct (entries action) as [|e1 [|e2 es]] eqn:Hes; simpl in Hlen; try lia.
  unfold call_getOutput.
  destruct (iteratorsHaveMetadata_cases action "totalItems") as [[Hyes ->]|[Hno ->]];
    traced_steps.
  - destruct (getOutput self action) as [out|e] eqn:Hout.
    + destruct (metadata out); eexists; (split; [reflexivity|]);
        (split_and!; [done|done|]);
        intros out' [= <-]; eexists; by split_and!.
    + eexists. split; [reflexivity|]. split_and!; [done|by intros ? [= <-]|done].
  - eexists. split; [reflexivity|]. split_and!; [done|done|].
    intros out ->. eexists. by split_and!.
Qed.

Lemma run_passes_output_witness :
  run actor_without_limit
      {| entries := entries action_1 ++ [quads_entry] |} []
  = (Normal joined_without_metadata,
     [CallGetOutput {| entries := entries action_1 ++ [quads_entry] |}]).
Proof.
  destruct (run_passes_output actor_without_limit
              {| entries := entries action_1 ++ [quads_entry] |} [])
    as (r & Hrun & Hsame & _).
  - simpl. lia.
  - rewrite Hrun. f_equal. apply Hsame.
    intros Hrep. apply Forall_cons in Hrep as [_ Hrep].
    apply Forall_cons in Hrep as [(m & Hm & _) _]. discriminate Hm.
Defined.

(** X13.  An actor constructed without a limit accepts any number of
    entries.  One constructed with the upper limit 0 has a [test] that
    rejects every action with two or more entries, and so has one
    constructed with no limit but with [limitEntriesMin]. *)
Theorem constructor_limits (name : string)
    (getOutput : IActionRdfJoin → Promise IActorQueryOperationOutputBindings)
    (getIterations : IActionRdfJoin → Promise Number)
    (action : IActionRdfJoin) (calls : list Call) :
  (∀ limitEntriesMin, limitEntriesMin = None ∨ limitEntriesMin = Some false →
     violatesLimit (new_ActorRdfJoin name None limitEntriesMin getOutput getIterations)
                   (length (entries action)) = false)
  ∧ ((2 ≤ length (entries action))%nat →
       test (new_ActorRdfJoin name (Some (Fin 0)) None getOutput getIterations) action calls
       = (Throw (ErrLimitEntries name (Fin 0) false (length (entries action))), calls)
       ∧ test (new_ActorRdfJoin name None (Some true) getOutput getIterations) action calls
         = (Throw (ErrLimitEntries name PosInf true (length (entries action))), calls)).
Proof.
  split.
  - by intros ? [-> | ->].
  - intros Hlen. unfold test.
    rewrite (proj2 (Nat.leb_gt _ _)) by lia.
    unfold violatesLimit, new_ActorRdfJoin. cbn.
    rewrite (proj2 (Z.ltb_lt 0 (Z.of_nat (length (entries action))))) by lia.
    done.
Qed.

Lemma constructor_limits_witness :
  test (new_ActorRdfJoin "actor" (Some (Fin 0)) None
          (fun _ => Normal joined_without_metadata) (fun _ => Normal (Fin 6)))
       action_2_3 []
  = (Throw (ErrLimitEntries "actor" (Fin 0) false 2), []).
Proof.
  apply (proj2 (constructor_limits "actor" (fun _ => Normal joined_without_metadata)
                  (fun _ => Normal (Fin 6)) action_2_3 [])).
  simpl. lia.
Defined.
End JoinActorFacts.

(** ** More on the slice operator *)
Section SliceMoreFacts.
Import Js Rdf QuerySlice Examples.

Lemma transform_sublist {A} (offset limit : Number) (stream : list A) :
  sublist (transform offset limit stream) stream.
Proof.
  assert (∀ n (l : list A), sublist (drop n l) l) as Hdrop.
  { intros n l. rewrite <- (take_drop n l) at 2. apply sublist_inserts_l. done. }
  assert (∀ n (l : list A), sublist (take n l) l) as Htake.
  { intros n l. rewrite <- (take_drop n l) at 2. apply sublist_inserts_r. done. }
  unfold transform.
  destruct offset as [| |o|], limit as [| |l|];
    try apply sublist_nil_l; try done; try apply Hdrop; try apply Htake;
    (etrans; [apply Htake|apply Hdrop]).
Qed.

(** X14.  Whatever the start and the length of the slice (also negative,
    infinite or not a number), the sliced stream delivers only items of the
    input stream, in their order, each one at most once: slicing never
    invents, repeats or reorders items. *)
Theorem sliceStream_sublist {Operation A : Type} (stream : list A) (pattern : Slice Operation) :
  sublist (sliceStream stream pattern) stream
  ∧ (List.length (sliceStream stream pattern) ≤ List.length stream)%nat.
Proof.
  assert (sublist (sliceStream stream pattern) stream) as H
    by apply transform_sublist.
  split; [done|]. by apply sublist_length.
Qed.

(** X15.  Slicing a slice is one slice: after skipping [a] items and
    keeping [b], skipping [c] and keeping [d] gives what skipping [a + c]
    and keeping [min (b - c) d] gives; without lengths the starts add up. *)
Theorem sliceStream_compose {Operation A : Type} (stream : list A)
    (i1 i2 i3 : Operation) (a b c d : Z) :
  0 ≤ a → 0 ≤ c →
  sliceStream
    (sliceStream stream {| input := i1; start := Fin a; length := Some (Fin b) |})
    {| input := i2; start := Fin c; length := Some (Fin d) |}
  = sliceStream stream
      {| input := i3; start := Fin (a + c); length := Some (Fin (Z.min (b - c) d)) |}
  ∧ sliceStream
      (sliceStream stream {| input := i1; start := Fin a; length := None |})
      {| input := i2; start := Fin c; length := None |}
    = sliceStream stream {| input := i3; start := Fin (a + c); length := None |}.
Proof.
  intros Ha Hc. rewrite !sliceStream_present, !sliceStream_absent. split.
  - rewrite skipn_firstn_comm, take_take, drop_drop.
    f_equal; [lia|]. f_equal. lia.
  - rewrite drop_drop. f_equal. lia.
Qed.

Lemma sliceStream_compose_witness :
  sliceStream (sliceStream four_bindings limit_2_offset_1)
              {| input := (); start := Fin 1; length := Some (Fin 5) |}
  = sliceStream four_bindings {| input := (); start := Fin 2; length := Some (Fin 1) |}.
Proof.
  apply (sliceStream_compose four_bindings () () () 1 2 1 5); lia.
Defined.

(** X16.  When the child reports the exact number of its items, so does
    the slice: for a start and a length that are not negative, the
    [totalItems] of the output of [runOperation] is the number of bindings
    its stream delivers. *)
Theorem slice_total_is_exact {Operation : Type} (self : ActorQueryOperationSlice Operation)
    (i : Operation) (s : Z) (len : option Z)
    (stream : list Bindings) (m : Metadata) (variables : list string) :
  0 ≤ s →
  (∀ L, len = Some L → 0 ≤ L) →
  mediatorQueryOperation self i = Normal (OutputBindings stream (Some (Normal m)) variables) →
  m !! "totalItems" = Some (JNumber (Fin (Z.of_nat (List.length stream)))) →
  ∃ stream' m',
    runOperation self {| input := i; start := Fin s; length := Fin <$> len |}
    = Normal (OutputBindings stream' (Some (Normal m')) variables)
    ∧ m' !! "totalItems" = Some (JNumber (Fin (Z.of_nat (List.length stream')))).
Proof.
  intros Hs HL Hmed Htot. unfold runOperation. cbn [QuerySlice.input]. rewrite Hmed.
  cbn [mbind Completion_bind].
  destruct len as [L|]; cbn [fmap option_fmap option_map].
  - specialize (HL L eq_refl).
    rewrite (sliceMetadata_present (OutputBindings stream (Some (Normal m)) variables)
              i m s L _ eq_refl Htot), sliceStream_present.
    eexists _, _. split; [reflexivity|].
    rewrite lookup_insert_eq, length_take, length_drop. do 3 f_equal. lia.
  - rewrite (sliceMetadata_absent (OutputBindings stream (Some (Normal m)) variables)
              i m s _ eq_refl Htot), sliceStream_absent.
    eexists _, _. split; [reflexivity|].
    rewrite lookup_insert_eq, length_drop. do 3 f_equal. lia.
Qed.

Lemma slice_total_is_exact_witness :
  ∃ stream' m',
    runOperation slice_actor limit_2_offset_1
    = Normal (OutputBindings stream' (Some (Normal m')) ["?x"; "?y"])
    ∧ m' !! "totalItems" = Some (JNumber (Fin (Z.of_nat (List.length stream')))).
Proof.
  apply (slice_total_is_exact slice_actor () 1 (Some 2) four_bindings
           (<["pageSize" := JNumber (Fin 100)]> {[ "totalItems" := JNumber (Fin 4) ]})
           ["?x"; "?y"]).
  - lia.
  - intros L [= <-]. lia.
  - reflexivity.
  - reflexivity.
Defined.

(** X17.  A total that is not known stays so.  Without metadata on the
    input the slice has none; a rejected metadata promise rejects with the
    same error; an infinite [totalItems] is passed on with the metadata
    unchanged, whatever the start and the length; and when the key is
    missing it is added with the value [undefined]. *)
Theorem sliceMetadata_unknown_total {Operation : Type}
    (output : IActorQueryOperationOutputStream) (pattern : Slice Operation) :
  (output_metadata output = None → sliceMetadata output pattern = None)
  ∧ (∀ e, output_metadata output = Some (Throw e) →
          sliceMetadata output pattern = Some (Throw e))
  ∧ (∀ m, output_metadata output = Some (Normal m) →
          m !! "totalItems" = Some (JNumber PosInf) →
          sliceMetadata output pattern = Some (Normal m))
  ∧ (∀ m, output_metadata output = Some (Normal m) →
          m !! "totalItems" = None →
          sliceMetadata output pattern
          = Some (Normal (<["totalItems" := JUndefined]> m))).
Proof.
  unfold sliceMetadata. split_and!.
  - by intros ->.
  - by intros e ->.
  - intros m -> Hm. cbn [mbind Completion_bind]. rewrite Hm.
    cbn [default id isFinite toNumber Number_isFinite]. by rewrite insert_id.
  - intros m -> Hm. cbn [mbind Completion_bind]. by rewrite Hm.
Qed.

(** X18.  [runOperation] rejects in two cases only: when the mediator
    rejects, with its error, and when the output it resolves with is
    neither bindings nor quads, with an error naming the type.  Metadata
    that are missing or that reject never make [runOperation] reject. *)
Theorem runOperation_rejects_iff {Operation : Type}
    (self : ActorQueryOperationSlice Operation) (pattern : Slice Operation) (e : Error) :
  runOperation self pattern = Throw e
  ↔ mediatorQueryOperation self (QuerySlice.input pattern) = Throw e
    ∨ ∃ type metadata,
        mediatorQueryOperation self (QuerySlice.input pattern)
        = Normal (OutputOther type metadata)
        ∧ e = ErrOutputType type.
Proof.
  unfold runOperation.
  destruct (mediatorQueryOperation self _) as [[bs md vs|qs md|ty md]|e'];
    cbn [mbind Completion_bind]; split.
  - done.
  - intros [?|(? & ? & ? & _)]; done.
  - done.
  - intros [?|(? & ? & ? & _)]; done.
  - intros [= <-]. right. eauto.
  - intros [?|(? & ? & [= <- _] & ->)]; done.
  - intros [= <-]. by left.
  - intros [[= <-]|(? & ? & ? & _)]; done.
Qed.
End SliceMoreFacts.

(** ** More on the native HTTP actor *)
Section HttpMoreFacts.
Import Js HttpNative HttpSpec Examples.
Variables KEY_CONTEXT_INCLUDE_CREDENTIALS KEY_CONTEXT_AUTH : string.

Abbreviation options_of :=
  (requestOptions KEY_CONTEXT_INCLUDE_CREDENTIALS KEY_CONTEXT_AUTH) (only parsing).

Lemma ascii_lower_idemp c : ascii_lower (ascii_lower c) = ascii_lower c.
Proof.
  destruct c as [[] [] [] [] [] [] [] []]; reflexivity.
Qed.

Lemma lower_idemp s : lower (lower s) = lower s.
Proof. induction s as [|c s IH]; simpl; [done|]. by rewrite ascii_lower_idemp, IH. Qed.

Lemma Headers_has_new_Headers (l : list (string * string)) name value other :
  (name, value) ∈ l → lower name = lower other →
  Headers_has (new_Headers (Some l)) other = true.
Proof.
  intros Hin Hlow. rewrite new_Headers_map. unfold Headers_has.
  apply existsb_exists. exists (lower name, value). split.
  - apply in_map_iff. exists (name, value). split; [done|]. by apply list_elem_of_In.
  - simpl. rewrite Hlow. apply String.eqb_refl.
Qed.

(** Header names do not depend on the letter case.  [has] and [get]
    answer alike for two names that differ in case only, and a header given
    to [new Headers] or appended under a name in any case is found under
    any other spelling of that name. *)
Theorem Headers_case_insensitive (headers : Headers) (name other : string) :
  lower name = lower other →
  Headers_has headers name = Headers_has headers other
  ∧ Headers_get headers name = Headers_get headers other
  ∧ (∀ value, Headers_has (Headers_append headers name value) other = true)
  ∧ (∀ l value, (name, value) ∈ l → Headers_has (new_Headers (Some l)) other = true).
Proof.
  intros Hlow. unfold Headers_has, Headers_get. rewrite Hlow. split_and!; try done.
  - intros value. unfold Headers_append. rewrite existsb_app. simpl.
    by rewrite Hlow, String.eqb_refl, orb_true_r.
  - intros l value Hin. by apply (Headers_has_new_Headers l name value other).
Qed.

Lemma Headers_case_insensitive_witness :
  Headers_has [("content-type", "text/turtle")] "Content-Type"
  = Headers_has [("content-type", "text/turtle")] "CONTENT-TYPE".
Proof.
  apply (Headers_case_insensitive [("content-type", "text/turtle")]
           "Content-Type" "CONTENT-TYPE" eq_refl).
Defined.

(** X19.  A user agent that the caller names in the headers of [init],
    spelled in any letter case, keeps the actor's own user agent out: the
    request carries the headers of [init], with lower-case names, and
    nothing more. *)
Theorem caller_user_agent_any_case (self : ActorHttpNative) (action : IActionHttp)
    (i : RequestInit) (l : list (string * string)) (name value : string) :
  init action = Some i →
  init_headers i = Some l →
  (name, value) ∈ l →
  lower name = "user-agent" →
  opt_headers (options_of self action)
  = Some (map (fun entry => (lower (fst entry), snd entry)) l).
Proof.
  intros Hinit Hheaders Hin Hlow.
  rewrite requestOptions_headers. unfold initialHeaders. rewrite Hinit, Hheaders.
  rewrite (Headers_has_new_Headers l name value "user-agent" Hin) by done.
  by rewrite new_Headers_map.
Qed.

(** The URL of the request. *)
Lemma requestOptions_url self action :
  opt_url (options_of self action) =
    Some match input action with
         | InputString s => InputString s
         | InputRequest r =>
             if String.eqb (url r) "" then InputRequest r else InputString (url r)
         end.
Proof.
  unfold requestOptions, inputOptions, assign_request.
  destruct (input action) as [s|r]; [|destruct (String.eqb (url r) "")];
    repeat case_match; done.
Qed.



(** X21.  The [redirected] flag of the result tells whether the response
    came from another URL than the one requested: for a URL given as a
    string, or as a [Request] with a URL, it is false exactly when the
    response URL is that URL.  For a [Request] whose URL is empty it is
    always true. *)
Theorem redirected_iff_other_url (self : ActorHttpNative) (action : IActionHttp)
    (calls calls' : list Call) (out : IActorHttpOutput) :
  run KEY_CONTEXT_INCLUDE_CREDENTIALS KEY_CONTEXT_AUTH self action calls
  = (Normal out, calls') →
  ∃ httpResponse,
    createRequest self (options_of self action) = EmitResponse httpResponse None
    ∧ status out = statusCode httpResponse
    ∧ out_headers out = response_headers httpResponse
    ∧ (∀ s, input action = InputString s →
            (redirected out = false ↔ responseUrl httpResponse = s))
    ∧ (∀ r, input action = InputRequest r → url r ≠ "" →
            (redirected out = false ↔ responseUrl httpResponse = url r))
    ∧ (∀ r, input action = InputRequest r → url r = "" → redirected out = true).
Proof.
  intros Hrun. apply run_resolves in Hrun as (httpResponse & Hreq & ->).
  exists httpResponse. split; [done|].
  cbn [status out_headers redirected responseOutput]. rewrite requestOptions_url.
  split_and!; try done.
  - intros s ->. simpl. rewrite negb_false_iff, String.eqb_eq. split; congruence.
  - intros r -> Hurl. destruct (String.eqb_spec (url r) ""); [done|].
    simpl. rewrite negb_false_iff, String.eqb_eq. split; congruence.
  - intros r -> ->. done.
Qed.

(** X22.  What [run] does is settled in three steps.  A header of [init]
    that the [Headers] class refuses rejects [run] with the [TypeError] of
    the first such header, and no request is made.  When all of them are
    legal but the headers name no user agent and the class refuses the one
    of the actor, [run] rejects with that [TypeError], again without a
    request.  Otherwise [run] makes exactly one request, and rejects in
    three cases only, each time with the error it was given: when
    [createRequest] throws, when the request emits an error, and when the
    response emits one before it is handed on.  The status code plays no
    part: a response with an error status resolves, with [ok] false. *)
Theorem run_rejects_iff (self : ActorHttpNative) (action : IActionHttp)
    (calls : list Call) :
  ∃ result calls',
    run KEY_CONTEXT_INCLUDE_CREDENTIALS KEY_CONTEXT_AUTH self action calls
    = (result, calls')
    ∧ (∀ before name value after e,
         initPairs action = before ++ (name, value) :: after →
         (∀ n v, (n, v) ∈ before → Headers_refuses self n v = None) →
         Headers_refuses self name value = Some e →
         result = Throw e ∧ calls' = calls)
    ∧ (∀ e,
         (∀ n v, (n, v) ∈ initPairs action → Headers_refuses self n v = None) →
         Headers_has (initialHeaders action) "user-agent" = false →
         Headers_refuses self "user-agent" (userAgent self) = Some e →
         result = Throw e ∧ calls' = calls)
    ∧ ((∀ n v, (n, v) ∈ initPairs action → Headers_refuses self n v = None) →
       (Headers_has (initialHeaders action) "user-agent" = false →
        Headers_refuses self "user-agent" (userAgent self) = None) →
       calls' = calls ++ [CallCreateRequest (options_of self action)]
       ∧ (∀ e, result = Throw e ↔
               createRequest self (options_of self action) = RequestThrows e
               ∨ createRequest self (options_of self action) = EmitError e
               ∨ ∃ httpResponse,
                   createRequest self (options_of self action)
                   = EmitResponse httpResponse (Some e))
       ∧ (∀ httpResponse,
            createRequest self (options_of self action) = EmitResponse httpResponse None →
            ∃ out, result = Normal out
                   ∧ (ok out = false ↔ 300 ≤ statusCode httpResponse))).
Proof.
  unfold run. rewrite headersChecks_cases.
  destruct (Headers_check _ (initPairs action)) as [[]|e0] eqn:Hinit.
  - pose proof (proj1 (Headers_check_Normal _ _) Hinit) as Hlegal. clear Hinit.
    rename Hlegal into Hinit.
    assert (Hfirst : ∀ before name value after e,
              initPairs action = before ++ (name, value) :: after →
              Headers_refuses self name value = Some e → False).
    { intros before name value after e Heq Hr.
      rewrite (Hinit name value) in Hr; [done|].
      rewrite Heq. apply elem_of_app. right. by left. }
    destruct (Headers_has (initialHeaders action) "user-agent") eqn:Hua;
      [|destruct (Headers_refuses self "user-agent" (userAgent self)) as [e0|] eqn:Hr].
    2:{ eexists. eexists. split; [reflexivity|]. split_and!.
        - intros ? ? ? ? ? Heq _ Hr'. destruct (Hfirst _ _ _ _ _ Heq Hr').
        - intros e _ _ [= <-]. done.
        - intros _ Hnone. by specialize (Hnone eq_refl). }
    all: traced_steps;
      destruct (createRequest self _) as [error|error|httpResponse [error|]] eqn:Hreq;
      traced_steps; eexists; eexists; (split; [reflexivity|]);
      (split; [intros ? ? ? ? ? Heq _ Hr'; destruct (Hfirst _ _ _ _ _ Heq Hr')|]);
      (split; [intros ? _; congruence|]); intros _ _;
      (split; [reflexivity|]); split.
    all: try (intros e; split; [intros [= <-]; eauto|];
              intros [?|[?|(? & ?)]]; congruence).
    all: try done.
    all: intros ? [= <-]; eexists; (split; [reflexivity|]);
      cbn [ok responseOutput]; apply Z.ltb_ge.
  - eexists. eexists. split; [reflexivity|]. split_and!.
    + intros before name value after e Heq Hbefore Hname.
      split; [|done].
      assert (Headers_check (Headers_refuses self) (initPairs action) = Throw e) as He.
      { apply Headers_check_Throw. exists before, name, value, after. done. }
      congruence.
    + intros e Hall. apply Headers_check_Normal in Hall. congruence.
    + intros Hall. apply Headers_check_Normal in Hall. congruence.
Qed.
End HttpMoreFacts.

Section HttpMoreExamples.
Import Js HttpNative HttpSpec Examples MoreExamples.

Lemma caller_user_agent_any_case_witness :
  opt_headers (requestOptions key_credentials key_auth native_actor
                 action_with_upper_case_agent)
  = Some [("accept", "text/turtle"); ("user-agent", "custom/1.0")].
Proof.
  apply (caller_user_agent_any_case key_credentials key_auth native_actor
           action_with_upper_case_agent _ _ "User-Agent" "custom/1.0" eq_refl eq_refl).
  - right. left.
  - reflexivity.
Defined.

Lemma redirected_iff_other_url_witness :
  ∃ out calls',
    run key_credentials key_auth native_actor action_with_context [] = (Normal out, calls')
    ∧ redirected out = false.
Proof.
  set (options := requestOptions key_credentials key_auth native_actor action_with_context).
  assert (Hrun : run key_credentials key_auth native_actor action_with_context []
                 = (Normal (responseOutput options response_203),
                    [CallCreateRequest options])).
  { vm_compute. reflexivity. }
  exists (responseOutput options response_203), [CallCreateRequest options].
  split; [exact Hrun|].
  destruct (redirected_iff_other_url key_credentials key_auth native_actor
              action_with_context [] _ _ Hrun)
    as (httpResponse & Hreq & _ & _ & Hstring & _).
  injection Hreq as <-.
  apply (Hstring "http://ex/data" eq_refl). reflexivity.
Defined.
End HttpMoreExamples.

(** ** The data sources of a context *)
Section ResolveQuadPatternFacts.
Import Js ResolveQuadPattern MoreExamples.

Lemma indexOf_hash_split (fileUrl : string) (position : nat) :
  indexOf_hash fileUrl = Some position →
  indexOf_hash (slice_to fileUrl position) = None
  ∧ ∃ fragment, fileUrl = slice_to fileUrl position +:+ "#" +:+ fragment.
Proof.
  unfold slice_to. revert position.
  induction fileUrl as [|c rest IH]; intros position; simpl; [done|].
  destruct (Ascii.eqb_spec c "#") as [->|Hc].
  - intros [= <-]. simpl. split; [done|]. by exists rest.
  - destruct (indexOf_hash rest) as [n|]; [|done]. simpl. intros [= <-].
    destruct (IH n eq_refl) as (Hnone & fragment & Hrest). simpl.
    destruct (Ascii.eqb_spec c "#"); [done|]. rewrite Hnone. split; [done|].
    exists fragment. by rewrite Hrest at 1.
Qed.

(** X23.  [getContextSourceUrl] answers only for a source whose value is
    a string.  Its answer has no hash in it: it is the value itself when
    that has none, and otherwise the value up to its first hash. *)
Theorem getContextSourceUrl_strips_fragment (source : option IDataSource) (url : string) :
  getContextSourceUrl source = Some url →
  ∃ dataSource fileUrl,
    source = Some dataSource
    ∧ getDataSourceValue dataSource = ValueString fileUrl
    ∧ indexOf_hash url = None
    ∧ (fileUrl = url ∨ ∃ fragment, fileUrl = url +:+ "#" +:+ fragment).
Proof.
  unfold getContextSourceUrl.
  destruct source as [dataSource|]; [|done].
  destruct (source_truthy dataSource) eqn:Htruthy; [|done].
  destruct (getDataSourceValue dataSource) as [fileUrl|] eqn:Hvalue; [|done].
  destruct (indexOf_hash fileUrl) as [position|] eqn:Hhash; intros [= <-].
  - destruct (indexOf_hash_split fileUrl position Hhash) as (Hnone & fragment & Hsplit).
    exists dataSource, fileUrl. split_and!; eauto.
  - exists dataSource, fileUrl. split_and!; eauto.
Qed.

Lemma getContextSourceUrl_strips_fragment_witness :
  getContextSourceUrl (Some source_with_fragment) = Some "http://ex/data.ttl"
  ∧ indexOf_hash "http://ex/data.ttl" = None.
Proof.
  split; [reflexivity|].
  destruct (getContextSourceUrl_strips_fragment (Some source_with_fragment)
              "http://ex/data.ttl" eq_refl)
    as (dataSource & fileUrl & _ & _ & Hnone & _).
  exact Hnone.
Defined.

(** X24.  A context that has a single source of some type has a single
    source: [hasContextSingleSourceOfType] implies [hasContextSingleSource],
    and the source of the context then has that type and a value that is
    not empty. *)
Theorem single_source_of_type_is_single_source (requiredType : string)
    (context : option (gmap string ContextEntry)) :
  hasContextSingleSourceOfType requiredType context = true →
  hasContextSingleSource context = true
  ∧ ∃ source, getContextSource context = Some source
              ∧ getDataSourceType source = Some requiredType
              ∧ getDataSourceValue source ≠ ValueString "".
Proof.
  unfold hasContextSingleSourceOfType, hasContextSingleSource.
  destruct (getContextSource context) as [source|]; [|done].
  rewrite !andb_true_iff, bool_decide_eq_true.
  intros [[Hsource Htype] Hvalue]. rewrite Hsource, Hvalue, orb_true_r.
  split; [done|]. exists source. split_and!; [done|done|].
  intros Heq. by rewrite Heq in Hvalue.
Qed.

Lemma single_source_of_type_is_single_source_witness :
  hasContextSingleSource (Some context_with_file_source) = true.
Proof.
  apply (single_source_of_type_is_single_source "file" (Some context_with_file_source)).
  reflexivity.
Defined.

(** X25.  [getDataSourceContext] leaves the context as it is for a source
    that is a string, an RDF source, or a record without a context of its
    own.  For a record with a context, every key of that context gets its
    entry and every other key keeps the entry it had; doing it twice
    changes nothing more. *)
Theorem getDataSourceContext_overrides (dataSource : IDataSource)
    (context : gmap string ContextEntry) :
  (isDataSourceRawType dataSource = true → getDataSourceContext dataSource context = context)
  ∧ (∀ type value, dataSource = SourceRecord type value None →
       getDataSourceContext dataSource context = context)
  ∧ (∀ type value sourceContext,
       dataSource = SourceRecord type value (Some sourceContext) →
       ∀ key, getDataSourceContext dataSource context !! key
              = match sourceContext !! key with
                | Some entry => Some entry
                | None => context !! key
                end)
  ∧ getDataSourceContext dataSource (getDataSourceContext dataSource context)
    = getDataSourceContext dataSource context.
Proof.
  split_and!.
  - by destruct dataSource.
  - by intros ? ? ->.
  - intros ? ? sourceContext -> key. simpl. unfold merge.
    rewrite lookup_union. by destruct (sourceContext !! key), (context !! key).
  - destruct dataSource as [| |? ? [sourceContext|]]; try done.
    simpl. unfold merge. by rewrite (assoc_L (∪)), (idemp_L (∪)).
Qed.
End ResolveQuadPatternFacts.

(** ** The life cycle of the runner's actors *)
Section RunnerLifecycleFacts.
Import Js RunnerModel RunnerLifecycle Examples.
Context {IActionInit IActorTest IActorOutputInit IAny : Type}.

Lemma array_map_call {C A B} (event : A → C) (f : A → B) (l : list A) (calls : list C) :
  array_map (fun x => call (event x) (f x)) l calls
  = (Normal (map f l), calls ++ map event l).
Proof.
  revert calls. induction l as [|x l IH]; intros calls.
  - simpl. by rewrite (right_id_L [] (++)).
  - cbn [array_map map]. unfold mbind at 1, Traced_bind. unfold call at 1.
    unfold mbind at 1, Traced_bind. rewrite IH.
    by rewrite <- (assoc_L (++)).
Qed.

(** X26.  [initialize] calls [initialize] on every actor of the runner, in
    their order, also when one of them fails; it resolves with [true] when
    all of them resolve and rejects when one rejects.  [deinitialize] does
    the same with [deinitialize]. *)
Theorem lifecycle_reaches_every_actor
    (initializeOf deinitializeOf
       : ActorInit IActionInit IActorTest IActorOutputInit → Promise IAny)
    (self : Runner IActionInit IActorTest IActorOutputInit)
    (calls : list LifecycleCall) :
  (∃ result,
     initialize initializeOf self calls
     = (result, calls ++ map CallInitialize (actors self))
     ∧ (Forall (fun actor => ∃ v, initializeOf actor = Normal v) (actors self) →
          result = Normal true)
     ∧ (Exists (fun actor => ∃ e, initializeOf actor = Throw e) (actors self) →
          ∃ e, result = Throw e))
  ∧ (∃ result,
       deinitialize deinitializeOf self calls
       = (result, calls ++ map CallDeinitialize (actors self))
       ∧ (Forall (fun actor => ∃ v, deinitializeOf actor = Normal v) (actors self) →
            result = Normal true)
       ∧ (Exists (fun actor => ∃ e, deinitializeOf actor = Throw e) (actors self) →
            ∃ e, result = Throw e)).
Proof.
  assert (∀ (f : ActorInit IActionInit IActorTest IActorOutputInit → Promise IAny) l,
            Forall (fun actor => ∃ v, f actor = Normal v) l →
            ∃ vs, Promise_all (map f l) = Normal vs) as Hall.
  { intros f l. induction 1 as [|x l [v Hv] _ [vs IH]]; simpl; [by eexists|].
    rewrite Hv, IH. by eexists. }
  split.
  - unfold initialize. unfold mbind at 1, Traced_bind. rewrite array_map_call.
    unfold await. unfold mbind at 1, Traced_bind.
    destruct (Promise_all (map initializeOf (actors self))) as [vs|e] eqn:Hp;
      eexists; (split; [reflexivity|]); split; try done.
    + intros Hex. apply (Promise_all_rejected initializeOf) in Hex as [e He]. congruence.
    + intros Hfa. apply Hall in Hfa as [vs Hvs]. congruence.
    + eauto.
  - unfold deinitialize. unfold mbind at 1, Traced_bind. rewrite array_map_call.
    unfold await. unfold mbind at 1, Traced_bind.
    destruct (Promise_all (map deinitializeOf (actors self))) as [vs|e] eqn:Hp;
      eexists; (split; [reflexivity|]); split; try done.
    + intros Hex. apply (Promise_all_rejected deinitializeOf) in Hex as [e He]. congruence.
    + intros Hfa. apply Hall in Hfa as [vs Hvs]. congruence.
    + eauto.
Qed.
End RunnerLifecycleFacts.

(** ** The keys of the serialized bindings *)
Section SerializeTreeFacts.
Import Js Rdf SerializeTree Examples.


End SerializeTreeFacts.
